(** * Audacity: MemoryX.h utilities and SetTrackInfoCommand

    A shallow embedding of two pieces of the Audacity sources:

    - [src/MemoryX.h]: the in-place optional [Maybe<X>], the
      [IteratorRange<Iterator>] adapter (searches, predicates and
      accumulations), [ValueRestorer<T>], [ArrayOf<X>] and [ArraysOf<X>];
    - [src/commands/SetTrackInfoCommand.cpp]: the constructor,
      [DefineParams] and [Apply] of [SetTrackInfoCommand].

    C++ [long] is modelled as a 64-bit two's complement integer carried in
    [Z], every conversion to it written out with [to_long]. *)

From Stdlib Require Import ZArith Lia PrimFloat.
From stdpp Require Import base option list strings functions.

Open Scope Z_scope.

(** ** The C++ [long] type (LP64) *)

Definition LONG_BITS : Z := 64.
Definition LONG_MAX : Z := 2 ^ (LONG_BITS - 1) - 1.
Definition LONG_MIN : Z := - 2 ^ (LONG_BITS - 1).

(** Conversion of an integer value to [long]: reduction modulo [2^64] into
    the signed range. *)
Definition to_long (z : Z) : Z :=
  (z + 2 ^ (LONG_BITS - 1)) mod 2 ^ LONG_BITS - 2 ^ (LONG_BITS - 1).

(** Conversion of an integer value to [size_t], an unsigned 64-bit
    integer. *)
Definition to_size_t (z : Z) : Z := z mod 2 ^ 64.

(** ** MemoryX.h: [Maybe<X>] *)

Module Maybe.
Section Maybe.
Context {X : Type}.

(** The object is its pointer member [pp]: [None] is [nullptr], [Some x]
    points at the object [x] living in the in-place [storage]. *)
Record t : Type := Build { pp : option X }.

(** Operations that run a destructor of [X] return, next to the new state,
    the objects destroyed, in order. *)

(** [Maybe() {}], with the member initialiser [X* pp{ nullptr }]. *)
Definition ctor : t := Build None.

(** [X* get() const { return pp; }] *)
Definition get (m : t) : option X := pp m.

(** [explicit operator bool() const { return pp != nullptr; }] *)
Definition to_bool (m : t) : bool :=
  match pp m with
  | Some _ => true
  | None => false
  end.

(** [void reset() { if (pp) pp->~X(), pp = nullptr; }] *)
Definition reset (m : t) : t * list X :=
  match pp m with
  | Some x => (Build None, [x])
  | None => (m, [])
  end.

(** [create(args...)]: [reset(); pp = safenew(address()) X(args...);]
    with [x] the object the constructor call builds. *)
Definition create (x : X) (m : t) : t * list X :=
  let '(_, destroyed) := reset m in (Build (Some x), destroyed).

(** [~Maybe() { reset(); }] *)
Definition dtor (m : t) : t * list X := reset m.
End Maybe.
Arguments t : clear implicits.
End Maybe.

(** ** MemoryX.h: [IteratorRange<Iterator>] *)

Module IteratorRange.
Section IteratorRange.
Context {A : Type} `{EqDecision A}.

(** An iterator is the position it designates in the underlying sequence.
    A range is the pair of iterators [first], [second] of the C++ struct;
    it is given here by [first] and the elements lying between the two, so
    that [second] is [first] advanced once per element. *)
Record t : Type := Build { first : nat; elems : list A }.

Definition second (r : t) : nat := (first r + length (elems r))%nat.

(** [Iterator begin() const { return this->first; }] *)
Definition begin (r : t) : nat := first r.

(** [Iterator end() const { return this->second; }] *)
Definition end_ (r : t) : nat := second r.

(** [std::find(first, last, value)]:
    advance [first] until it reaches [last] or designates an element
    equal to [value], and return it ([last] when there is no such element).
    The elements from [first] up to [last] are [between]. *)
Fixpoint std_find (first : nat) (between : list A) (value : A) : nat :=
  match between with
  | [] => first
  | x :: between' =>
      if decide (x = value) then first
      else std_find (S first) between' value
  end.

(** [std::distance(a, b)] for a reachable [b]: the number of increments,
    a value of the iterator's difference type. *)
Definition std_distance (a b : nat) : Z := Z.of_nat b - Z.of_nat a.

(** [size_t size() const
      { return std::distance(this->begin(), this->end()); }] *)
Definition size (r : t) : Z := to_size_t (std_distance (begin r) (end_ r)).

(** [bool empty() const { return this->begin() == this->end(); }] *)
Definition empty (r : t) : bool := bool_decide (begin r = end_ r).

(** [find(t)]: [return std::find(this->begin(), this->end(), t);] *)
Definition find (r : t) (v : A) : nat := std_find (begin r) (elems r) v.

(** [long index(t)]:
    [auto iter = this->find(t);
     if (iter == this->end()) return -1;
     return std::distance(this->begin(), iter);] *)
Definition index (r : t) (v : A) : Z :=
  let iter := find r v in
  if decide (iter = end_ r) then -1
  else to_long (std_distance (begin r) iter).

(** [bool contains(t)]: [return this->end() != this->find(t);] *)
Definition contains (r : t) (v : A) : bool :=
  bool_decide (end_ r ≠ find r v).
End IteratorRange.
Arguments t : clear implicits.
End IteratorRange.

(** ** commands/SetTrackInfoCommand.cpp *)

Module SetTrackInfoCommand.

(** *** The object graph the command works on *)

(** Modelled from the spec: the track classes ([Track.h], [WaveTrack.h])
    are not among the sources. A track carries the properties the command
    sets ("name, pan, gain, selection, focus, solo, mute"), and its dynamic
    type is recorded by the outcome of the two runtime type checks the
    command makes: whether it is wave-capable ([dynamic_cast<WaveTrack *>]
    is not null) and whether it is playable
    ([dynamic_cast<PlayableTrack *>] is not null). *)
Record Track : Type := {
  track_name : string;
  track_selected : bool;
  track_pan : float;
  track_gain : float;
  track_solo : bool;
  track_mute : bool;
  is_WaveTrack : bool;
  is_PlayableTrack : bool
}.

(** A non-null [Track *] into the project's list is the position of the
    track it points at; [option TrackPtr] adds [nullptr] as [None]. *)
Abbreviation TrackPtr := nat (only parsing).

(** The part of the project the command reaches through its context: the
    track list ([GetTracks]) and the track panel's focused track
    ([GetTrackPanel]). *)
Record Project : Type := {
  tracks : list Track;
  focused_track : option TrackPtr
}.

(** Calls the command makes on objects it does not own, with their
    arguments. *)
Inductive Call : Type :=
| Error (message : string)
| SetName (t : TrackPtr) (name : string)
| SetPan (wt : TrackPtr) (pan : float)
| SetGain (wt : TrackPtr) (gain : float)
| SetSelected (t : TrackPtr) (selected : bool)
| SetFocusedTrack (t : TrackPtr)
| SetSolo (pt : TrackPtr) (solo : bool)
| SetMute (pt : TrackPtr) (mute : bool).

(** *** The command object *)

(** Modelled from the spec: the class declaration
    ([SetTrackInfoCommand.h]) is not among the sources; the members are
    those the member functions name, "track index, name, pan, gain, four
    boolean flags and ... presence flags". [mTrackIndex] is an integer,
    compared with the [long] loop counter after the usual promotion. *)
Record t : Type := {
  mTrackIndex : Z;
  mTrackName : string;
  mPan : float;
  mGain : float;
  bSelected : bool;
  bFocused : bool;
  bSolo : bool;
  bMute : bool;
  bHasTrackName : bool;
  bHasPan : bool;
  bHasGain : bool;
  bHasSelected : bool;
  bHasFocused : bool;
  bHasSolo : bool;
  bHasMute : bool
}.

(** [SetTrackInfoCommand::SetTrackInfoCommand()]. The body assigns to
    members of an object that already exists: [raw] is that object as the
    constructor body finds it. Members the body does not assign keep
    whatever [raw] holds. *)
Definition ctor (raw : t) : t := {|
  mTrackIndex := 0;
  mTrackName := "unnamed";
  mPan := 0.0%float;
  mGain := 1.0%float;
  bSelected := false;
  bFocused := false;
  bSolo := false;
  bMute := false;
  bHasTrackName := bHasTrackName raw;
  bHasPan := bHasPan raw;
  bHasGain := bHasGain raw;
  bHasSelected := bHasSelected raw;
  bHasFocused := bHasFocused raw;
  bHasSolo := bHasSolo raw;
  bHasMute := bHasMute raw
|}.

(** *** DefineParams *)

(** The members a shuttle call is handed by reference. *)
Inductive Member : Type :=
| m_mTrackIndex | m_mTrackName | m_mPan | m_mGain
| m_bSelected | m_bFocused | m_bSolo | m_bMute
| m_bHasTrackName | m_bHasPan | m_bHasGain | m_bHasSelected
| m_bHasFocused | m_bHasSolo | m_bHasMute.

Inductive Value : Type :=
| VInt (z : Z)
| VDouble (d : float)
| VString (s : string)
| VBool (b : bool).

(** Modelled from the spec: [ShuttleParams] ([Shuttle.h]) is not among the
    sources. The "parameter shuttle" is an external visitor; what the
    command does with it is the sequence of calls it makes on it:
    [S.Optional(flag)] and [S.Define(var, key, default, min, max)], the
    last two arguments being absent for strings and booleans. *)
Inductive ShuttleCall : Type :=
| Optional (flag : Member)
| Define (var : Member) (key : string) (vdefault : Value)
         (range : option (Value * Value)).

(** [bool SetTrackInfoCommand::DefineParams( ShuttleParams & S )] *)
Definition DefineParams : bool * list ShuttleCall :=
  (true,
   [ Define m_mTrackIndex "TrackIndex" (VInt 0) (Some (VInt 0, VInt 100));
     Optional m_bHasTrackName;
     Define m_mTrackName "Name" (VString "Unnamed") None;
     Optional m_bHasPan;
     Define m_mPan "Pan" (VDouble 0.0)
            (Some (VDouble (-1.0), VDouble 1.0));
     Optional m_bHasGain;
     Define m_mGain "Gain" (VDouble 1.0)
            (Some (VDouble 0.0, VDouble 10.0));
     Optional m_bHasSelected;
     Define m_bSelected "Selected" (VBool false) None;
     Optional m_bHasFocused;
     Define m_bFocused "Focuseed" (VBool false) None;
     Optional m_bHasSolo;
     Define m_bSolo "Solo" (VBool false) None;
     Optional m_bHasMute;
     Define m_bMute "Mute" (VBool false) None ]).

(** The names under which the calls of a shuttle log register
    parameters, in order. *)
Fixpoint registered_names (log : list ShuttleCall) : list string :=
  match log with
  | [] => []
  | Optional _ :: log' => registered_names log'
  | Define _ key _ _ :: log' => key :: registered_names log'
  end.

Definition Member_eqb (a b : Member) : bool :=
  match a, b with
  | m_mTrackIndex, m_mTrackIndex | m_mTrackName, m_mTrackName
  | m_mPan, m_mPan | m_mGain, m_mGain
  | m_bSelected, m_bSelected | m_bFocused, m_bFocused
  | m_bSolo, m_bSolo | m_bMute, m_bMute
  | m_bHasTrackName, m_bHasTrackName | m_bHasPan, m_bHasPan
  | m_bHasGain, m_bHasGain | m_bHasSelected, m_bHasSelected
  | m_bHasFocused, m_bHasFocused | m_bHasSolo, m_bHasSolo
  | m_bHasMute, m_bHasMute => true
  | _, _ => false
  end.

(** The range the first [Define] for member [var] declares. *)
Fixpoint declared_range (var : Member) (log : list ShuttleCall)
  : option (Value * Value) :=
  match log with
  | [] => None
  | Optional _ :: log' => declared_range var log'
  | Define v _ _ range :: log' =>
      if Member_eqb v var then range else declared_range var log'
  end.

(** The key under which the first [Define] for member [var] registers
    it. *)
Fixpoint param_key (var : Member) (log : list ShuttleCall) : option string :=
  match log with
  | [] => None
  | Optional _ :: log' => param_key var log'
  | Define v key _ _ :: log' =>
      if Member_eqb v var then Some key else param_key var log'
  end.

(** *** PopulateOrExchange *)

Inductive wxAlignment : Type := wxALIGN_CENTER.

(** Modelled from the spec: [ShuttleGui] ([ShuttleGui.h]) is not among the
    sources. The "GUI dialog-building protocol" is, like the parameter
    shuttle, an external visitor, recorded by the calls made on it; the
    translation macro [_("...")] is given by its source text. *)
Inductive GuiCall : Type :=
| AddSpace (width height : Z)
| StartMultiColumn (nCols : Z) (PositionFlags : wxAlignment)
| EndMultiColumn
| GuiOptional (flag : Member)
| TieNumericTextBox (Prompt : string) (var : Member)
| TieTextBox (Prompt : string) (var : Member)
| TieSlider (Prompt : string) (var : Member) (max min : float)
| TieCheckBox (Prompt : string) (var : Member).

(** [void SetTrackInfoCommand::PopulateOrExchange(ShuttleGui & S)] *)
Definition PopulateOrExchange : list GuiCall :=
  [ AddSpace 0 5;
    StartMultiColumn 2 wxALIGN_CENTER;
    TieNumericTextBox "Track Index" m_mTrackIndex;
    EndMultiColumn;
    StartMultiColumn 3 wxALIGN_CENTER;
    GuiOptional m_bHasTrackName; TieTextBox "Name" m_mTrackName;
    GuiOptional m_bHasPan; TieSlider "Pan" m_mPan 1.0 (-1.0);
    GuiOptional m_bHasGain; TieSlider "Gain" m_mGain 10.0 0.0;
    EndMultiColumn;
    StartMultiColumn 2 wxALIGN_CENTER;
    GuiOptional m_bHasSelected; TieCheckBox "Selected" m_bSelected;
    GuiOptional m_bHasFocused; TieCheckBox "Focused" m_bFocused;
    GuiOptional m_bHasSolo; TieCheckBox "Solo" m_bSolo;
    GuiOptional m_bHasMute; TieCheckBox "Mute" m_bMute;
    EndMultiColumn ].

(** The prompt of the first control tied to member [var]. *)
Fixpoint gui_prompt (var : Member) (log : list GuiCall) : option string :=
  match log with
  | [] => None
  | TieNumericTextBox prompt v :: log'
  | TieTextBox prompt v :: log'
  | TieSlider prompt v _ _ :: log'
  | TieCheckBox prompt v :: log' =>
      if Member_eqb v var then Some prompt else gui_prompt var log'
  | _ :: log' => gui_prompt var log'
  end.

(** *** Effects *)

(** A command step runs on the project, returns a value, leaves a project
    and has made calls, listed in the order made. *)
Definition Cmd (A : Type) : Type := Project -> A * Project * list Call.

Definition ret {A : Type} (a : A) : Cmd A := fun p => (a, p, []).

Definition bind {A B : Type} (m : Cmd A) (k : A -> Cmd B) : Cmd B :=
  fun p =>
    let '(a, p1, calls1) := m p in
    let '(b, p2, calls2) := k a p1 in
    (b, p2, calls1 ++ calls2).

Notation "x <- m ;; k" := (bind m (fun x => k))
  (at level 100, m at next level, right associativity).
Notation "m ;; k" := (bind m (fun _ => k))
  (at level 100, right associativity).

(** [if (b) step;] *)
Definition when (b : bool) (step : Cmd unit) : Cmd unit :=
  if b then step else ret tt.

(** [if (ptr && b) ptr->step;] *)
Definition when_ptr (ptr : option TrackPtr) (b : bool)
    (step : TrackPtr -> Cmd unit) : Cmd unit :=
  match ptr with
  | Some q => when b (step q)
  | None => ret tt
  end.

(** [context.GetProject()->GetTracks()] *)
Definition GetTracks : Cmd (list Track) := fun p => (tracks p, p, []).

(** [context.Error(message)]: reported to the context, the project is not
    touched. *)
Definition context_Error (message : string) : Cmd unit :=
  fun p => (tt, p, [Error message]).

(** [dynamic_cast<WaveTrack *>(t)] and [dynamic_cast<PlayableTrack *>(t)]:
    the same pointer when the track has the type asked for, null
    otherwise. *)
Definition dynamic_cast_WaveTrack (t : TrackPtr) : Cmd (option TrackPtr) :=
  fun p =>
    (match tracks p !! t with
     | Some tr => if is_WaveTrack tr then Some t else None
     | None => None
     end, p, []).

Definition dynamic_cast_PlayableTrack (t : TrackPtr)
  : Cmd (option TrackPtr) :=
  fun p =>
    (match tracks p !! t with
     | Some tr => if is_PlayableTrack tr then Some t else None
     | None => None
     end, p, []).

(** Modelled from the spec: the setters ([Track::SetName],
    [Track::SetSelected], [WaveTrack::SetPan], [WaveTrack::SetGain],
    [PlayableTrack::SetSolo], [PlayableTrack::SetMute],
    [TrackPanel::SetFocusedTrack]) are not among the sources. Each is a
    "setter" of the one property it is named after ("mutates track
    properties (name, pan, gain, selection, focus, solo, mute)"): it stores
    its argument in that property of the object it is called on and leaves
    every other property and object alone. *)
Definition with_name (v : string) (tr : Track) : Track :=
  {| track_name := v; track_selected := track_selected tr;
     track_pan := track_pan tr; track_gain := track_gain tr;
     track_solo := track_solo tr; track_mute := track_mute tr;
     is_WaveTrack := is_WaveTrack tr;
     is_PlayableTrack := is_PlayableTrack tr |}.

Definition with_selected (v : bool) (tr : Track) : Track :=
  {| track_name := track_name tr; track_selected := v;
     track_pan := track_pan tr; track_gain := track_gain tr;
     track_solo := track_solo tr; track_mute := track_mute tr;
     is_WaveTrack := is_WaveTrack tr;
     is_PlayableTrack := is_PlayableTrack tr |}.

Definition with_pan (v : float) (tr : Track) : Track :=
  {| track_name := track_name tr; track_selected := track_selected tr;
     track_pan := v; track_gain := track_gain tr;
     track_solo := track_solo tr; track_mute := track_mute tr;
     is_WaveTrack := is_WaveTrack tr;
     is_PlayableTrack := is_PlayableTrack tr |}.

Definition with_gain (v : float) (tr : Track) : Track :=
  {| track_name := track_name tr; track_selected := track_selected tr;
     track_pan := track_pan tr; track_gain := v;
     track_solo := track_solo tr; track_mute := track_mute tr;
     is_WaveTrack := is_WaveTrack tr;
     is_PlayableTrack := is_PlayableTrack tr |}.

Definition with_solo (v : bool) (tr : Track) : Track :=
  {| track_name := track_name tr; track_selected := track_selected tr;
     track_pan := track_pan tr; track_gain := track_gain tr;
     track_solo := v; track_mute := track_mute tr;
     is_WaveTrack := is_WaveTrack tr;
     is_PlayableTrack := is_PlayableTrack tr |}.

Definition with_mute (v : bool) (tr : Track) : Track :=
  {| track_name := track_name tr; track_selected := track_selected tr;
     track_pan := track_pan tr; track_gain := track_gain tr;
     track_solo := track_solo tr; track_mute := v;
     is_WaveTrack := is_WaveTrack tr;
     is_PlayableTrack := is_PlayableTrack tr |}.

(** A member function of the track at [t] that changes it by [f] and is
    recorded as [call]. *)
Definition on_track (t : TrackPtr) (f : Track -> Track) (call : Call)
  : Cmd unit :=
  fun p =>
    (tt,
     {| tracks := alter f t (tracks p); focused_track := focused_track p |},
     [call]).

Definition Track_SetName (t : TrackPtr) (name : string) : Cmd unit :=
  on_track t (with_name name) (SetName t name).

Definition Track_SetSelected (t : TrackPtr) (s : bool) : Cmd unit :=
  on_track t (with_selected s) (SetSelected t s).

Definition WaveTrack_SetPan (wt : TrackPtr) (pan : float) : Cmd unit :=
  on_track wt (with_pan pan) (SetPan wt pan).

Definition WaveTrack_SetGain (wt : TrackPtr) (gain : float) : Cmd unit :=
  on_track wt (with_gain gain) (SetGain wt gain).

Definition PlayableTrack_SetSolo (pt : TrackPtr) (solo : bool) : Cmd unit :=
  on_track pt (with_solo solo) (SetSolo pt solo).

Definition PlayableTrack_SetMute (pt : TrackPtr) (mute : bool) : Cmd unit :=
  on_track pt (with_mute mute) (SetMute pt mute).

(** [context.GetProject()->GetTrackPanel()->SetFocusedTrack(t)] *)
Definition TrackPanel_SetFocusedTrack (t : TrackPtr) : Cmd unit :=
  fun p =>
    (tt, {| tracks := tracks p; focused_track := Some t |},
     [SetFocusedTrack t]).

(** *** Apply *)

(** Modelled from the spec: [TrackListIterator] ([Track.h]) is not among the
    sources; it walks the track list "by linear index", in list order.
    [iter.First()] returns the first track and each [iter.Next()] the one
    after, null once the list is exhausted.

    [locate pos rest i mTrackIndex] is the loop
    [while (t && i != mTrackIndex) { t = iter.Next(); ++i; }]
    entered with [t] at position [pos], [rest] being the tracks from [t] on
    (empty when [t] is null) and [i] the counter, a [long]: [++i] is
    written with the conversion of [i + 1] to [long]. It returns [t] and
    [i] as the loop leaves them. *)
Fixpoint locate (pos : nat) (rest : list Track) (i mTrackIndex : Z)
  : option TrackPtr * Z :=
  match rest with
  | [] => (None, i)
  | _ :: rest' =>
      if i =? mTrackIndex then (Some pos, i)
      else locate (S pos) rest' (to_long (i + 1)) mTrackIndex
  end.

(** The statements of [Apply] after the track has been found. *)
Definition apply_fields (cmd : t) (t : TrackPtr) : Cmd bool :=
  wt <- dynamic_cast_WaveTrack t ;;
  pt <- dynamic_cast_PlayableTrack t ;;
  when (bHasTrackName cmd) (Track_SetName t (mTrackName cmd)) ;;
  when_ptr wt (bHasPan cmd) (fun wt => WaveTrack_SetPan wt (mPan cmd)) ;;
  when_ptr wt (bHasGain cmd) (fun wt => WaveTrack_SetGain wt (mGain cmd)) ;;
  when (bHasSelected cmd) (Track_SetSelected t (bSelected cmd)) ;;
  when (bHasFocused cmd) (TrackPanel_SetFocusedTrack t) ;;
  when_ptr pt (bHasSolo cmd)
    (fun pt => PlayableTrack_SetSolo pt (bSolo cmd)) ;;
  when_ptr pt (bHasMute cmd)
    (fun pt => PlayableTrack_SetMute pt (bMute cmd)) ;;
  ret true.

(** [context.Error(wxT("TrackIndex was invalid.")); return false;] *)
Definition invalid_index : Cmd bool :=
  context_Error "TrackIndex was invalid." ;;
  ret false.

(** [bool SetTrackInfoCommand::Apply(const CommandContext & context)].
    The test [if (i != mTrackIndex || !t)] is taken in the order [||]
    evaluates it. *)
Definition Apply (cmd : t) : Cmd bool :=
  tl <- GetTracks ;;
  let '(t, i) := locate 0 tl 0 (mTrackIndex cmd) in
  if negb (i =? mTrackIndex cmd) then invalid_index
  else
    match t with
    | None => invalid_index
    | Some t => apply_fields cmd t
    end.

End SetTrackInfoCommand.

(** ** Specification-level definitions *)

Import SetTrackInfoCommand.

(** The number of tracks of the project. *)
Definition track_count (p : Project) : Z := Z.of_nat (length (tracks p)).

(** What the present fields of [cmd] make of a track: a field marked
    present replaces the property when the track supports it, and the
    property is kept otherwise. *)
Definition updated_track (cmd : t) (tr : Track) : Track := {|
  track_name :=
    if bHasTrackName cmd then mTrackName cmd else track_name tr;
  track_selected :=
    if bHasSelected cmd then bSelected cmd else track_selected tr;
  track_pan :=
    if is_WaveTrack tr && bHasPan cmd then mPan cmd else track_pan tr;
  track_gain :=
    if is_WaveTrack tr && bHasGain cmd then mGain cmd else track_gain tr;
  track_solo :=
    if is_PlayableTrack tr && bHasSolo cmd then bSolo cmd else track_solo tr;
  track_mute :=
    if is_PlayableTrack tr && bHasMute cmd then bMute cmd else track_mute tr;
  is_WaveTrack := is_WaveTrack tr;
  is_PlayableTrack := is_PlayableTrack tr
|}.

(** The setter calls the present fields of [cmd] give rise to on the track
    [tr] at [t], in the order of the statements of [Apply]. *)
Definition setter_calls (cmd : t) (t : TrackPtr) (tr : Track) : list Call :=
  (if bHasTrackName cmd then [SetName t (mTrackName cmd)] else []) ++
  (if is_WaveTrack tr && bHasPan cmd then [SetPan t (mPan cmd)] else []) ++
  (if is_WaveTrack tr && bHasGain cmd then [SetGain t (mGain cmd)] else []) ++
  (if bHasSelected cmd then [SetSelected t (bSelected cmd)] else []) ++
  (if bHasFocused cmd then [SetFocusedTrack t] else []) ++
  (if is_PlayableTrack tr && bHasSolo cmd then [SetSolo t (bSolo cmd)] else []) ++
  (if is_PlayableTrack tr && bHasMute cmd then [SetMute t (bMute cmd)] else []).

(** The same object with the name presence flag the other way round. *)
Definition flip_bHasTrackName (raw : t) : t := {|
  mTrackIndex := mTrackIndex raw; mTrackName := mTrackName raw;
  mPan := mPan raw; mGain := mGain raw; bSelected := bSelected raw;
  bFocused := bFocused raw; bSolo := bSolo raw; bMute := bMute raw;
  bHasTrackName := negb (bHasTrackName raw);
  bHasPan := bHasPan raw; bHasGain := bHasGain raw;
  bHasSelected := bHasSelected raw; bHasFocused := bHasFocused raw;
  bHasSolo := bHasSolo raw; bHasMute := bHasMute raw
|}.

(** ** Sample projects and commands *)

(** A wave track and a label track. *)
Definition silent_track : Track := {|
  track_name := "Audio Track"; track_selected := false;
  track_pan := 0.0%float; track_gain := 1.0%float;
  track_solo := false; track_mute := false;
  is_WaveTrack := true; is_PlayableTrack := true
|}.

Definition label_track : Track := {|
  track_name := "Label Track"; track_selected := false;
  track_pan := 0.0%float; track_gain := 1.0%float;
  track_solo := false; track_mute := false;
  is_WaveTrack := false; is_PlayableTrack := false
|}.

(** A project of two tracks: a wave track, then a label track. *)
Definition two_tracks : Project :=
  {| tracks := [silent_track; label_track]; focused_track := None |}.

(** A command with every field present, on track [index]. *)
Definition set_everything (index : Z) : t := {|
  mTrackIndex := index; mTrackName := "Lead"; mPan := 0.5%float;
  mGain := 2.0%float; bSelected := true; bFocused := true;
  bSolo := true; bMute := true;
  bHasTrackName := true; bHasPan := true; bHasGain := true;
  bHasSelected := true; bHasFocused := true; bHasSolo := true;
  bHasMute := true
|}.

(** A command that only renames track 0. *)
Definition rename_first : t := {|
  mTrackIndex := 0; mTrackName := "Drums"; mPan := 0.0%float;
  mGain := 1.0%float; bSelected := false; bFocused := false;
  bSolo := false; bMute := false;
  bHasTrackName := true; bHasPan := false; bHasGain := false;
  bHasSelected := false; bHasFocused := false; bHasSolo := false;
  bHasMute := false
|}.

(** A project of 102 wave tracks, and a command whose index, pan and gain
    all lie outside the declared ranges. *)
Definition many_tracks : Project :=
  {| tracks := replicate 102 silent_track; focused_track := None |}.

Definition out_of_range : t := {|
  mTrackIndex := 101; mTrackName := "unnamed"; mPan := 5.0%float;
  mGain := (-3.0)%float; bSelected := false; bFocused := false;
  bSolo := false; bMute := false;
  bHasTrackName := false; bHasPan := true; bHasGain := true;
  bHasSelected := false; bHasFocused := false; bHasSolo := false;
  bHasMute := false
|}.

(** * Further members of MemoryX.h *)

(** ** [IteratorRange]: predicates and accumulations *)

Module IteratorRangeAlgorithms.
Import IteratorRange.

Section Predicates.
Context {A : Type}.

(** [explicit operator bool () const { return !this->empty(); }] *)
Definition to_bool (r : t A) : bool := negb (empty r).

(** [std::find_if(first, last, pred)]: advance [first] until it reaches
    [last] or designates an element [pred] accepts, and return it. *)
Fixpoint std_find_if (first : nat) (between : list A) (pred : A -> bool)
  : nat :=
  match between with
  | [] => first
  | x :: between' =>
      if pred x then first else std_find_if (S first) between' pred
  end.

(** [find_if(f)]:
    [return std::find_if(this->begin(), this->end(), f);] *)
Definition find_if (r : t A) (f : A -> bool) : nat :=
  std_find_if (begin r) (elems r) f.

(** [long index_if(f)]:
    [auto iter = this->find_if(f);
     if (iter == this->end()) return -1;
     return std::distance(this->begin(), iter);] *)
Definition index_if (r : t A) (f : A -> bool) : Z :=
  let iter := find_if r f in
  if decide (iter = end_ r) then -1
  else to_long (std_distance (begin r) iter).

(** [bool any_of(f)]: [return this->end() != this->find_if(f);] *)
Definition any_of (r : t A) (f : A -> bool) : bool :=
  bool_decide (end_ r ≠ find_if r f).

(** [bool all_of(f)]:
    [auto notF = [&](reference v) { return !f(v); };
     return !this->any_of( notF );] *)
Definition all_of (r : t A) (f : A -> bool) : bool :=
  let notF := fun v => negb (f v) in
  negb (any_of r notF).

(** [bool none_of(f)]: [return !this->any_of(f);] *)
Definition none_of (r : t A) (f : A -> bool) : bool := negb (any_of r f).

(** The loop of [accumulate],
    [for (auto&& v : *this) result = binary_op(result, unary_op(v));]
    over the elements still to visit. *)
Fixpoint accumulate_loop {R : Type} (binary_op : R -> R -> R)
    (unary_op : A -> R) (result : R) (rest : list A) : R :=
  match rest with
  | [] => result
  | v :: rest' =>
      accumulate_loop binary_op unary_op (binary_op result (unary_op v)) rest'
  end.

(** [R accumulate(R init, Binary binary_op, Unary unary_op) const]:
    [R result = init; for (...) ...; return result;] *)
Definition accumulate {R : Type} (init : R) (binary_op : R -> R -> R)
    (unary_op : A -> R) (r : t A) : R :=
  accumulate_loop binary_op unary_op init (elems r).

(** What [min], [max] and [sum] use of the result type [R]:
    [std::numeric_limits<R>::max()], the comparison [<] behind [std::min]
    and [std::max], unary minus, [R{ 0 }] and the [+] of
    [std::plus<R>]. *)
Record Numeric (R : Type) : Type := {
  numeric_limits_max : R;
  less : R -> R -> bool;
  negate : R -> R;
  zero : R;
  plus : R -> R -> R
}.
Arguments numeric_limits_max {R}.
Arguments less {R}.
Arguments negate {R}.
Arguments zero {R}.
Arguments plus {R}.

(** [std::min(a, b)] is [(b < a) ? b : a]; [std::max(a, b)] is
    [(a < b) ? b : a]. *)
Definition std_min {R : Type} (N : Numeric R) (a b : R) : R :=
  if less N b a then b else a.

Definition std_max {R : Type} (N : Numeric R) (a b : R) : R :=
  if less N a b then b else a.

(** [R min(Unary unary_op) const]:
    [return this->accumulate(std::numeric_limits< R >::max(), std::min,
                             unary_op);] *)
Definition min {R : Type} (N : Numeric R) (unary_op : A -> R) (r : t A) : R :=
  accumulate (numeric_limits_max N) (std_min N) unary_op r.

(** [R max(Unary unary_op) const]:
    [return this->accumulate(-std::numeric_limits< R >::max(), std::max,
                             unary_op);] *)
Definition max {R : Type} (N : Numeric R) (unary_op : A -> R) (r : t A) : R :=
  accumulate (negate N (numeric_limits_max N)) (std_max N) unary_op r.

(** [R sum(Unary unary_op) const]:
    [return this->accumulate(R{ 0 }, std::plus< R >{}, unary_op);] *)
Definition sum {R : Type} (N : Numeric R) (unary_op : A -> R) (r : t A) : R :=
  accumulate (zero N) (plus N) unary_op r.
End Predicates.
Arguments numeric_limits_max {R}.
Arguments less {R}.
Arguments negate {R}.
Arguments zero {R}.
Arguments plus {R}.

(** [R = long]: values are carried in [Z], within [LONG_MIN .. LONG_MAX].
    An addition that overflows is undefined in C++; it is written here
    with the conversion to [long], and no property below is stated of
    [sum] at this type. *)
Definition long_type : Numeric Z := {|
  numeric_limits_max := LONG_MAX;
  less := Z.ltb;
  negate := fun x => to_long (- x);
  zero := 0;
  plus := fun a b => to_long (a + b)
|}.

(** [R = size_t]: values are carried in [Z], within [0 .. 2^64 - 1];
    arithmetic is modulo [2^64]. *)
Definition size_t_type : Numeric Z := {|
  numeric_limits_max := 2 ^ 64 - 1;
  less := Z.ltb;
  negate := fun x => to_size_t (- x);
  zero := 0;
  plus := fun a b => to_size_t (a + b)
|}.
End IteratorRangeAlgorithms.

(** The sum of the values of a list, in [Z]. *)
Fixpoint total {A : Type} (unary_op : A -> Z) (l : list A) : Z :=
  match l with
  | [] => 0
  | v :: l' => unary_op v + total unary_op l'
  end.


(** ** [Maybe<X>]: copying, moving, and a lifetime of uses *)

Module MaybeAssign.

(** [Maybe] objects by address: [&a == &b] is equality of addresses. *)
Abbreviation Objects X := (nat -> Maybe.t X) (only parsing).

Section MaybeAssign.
Context {X : Type}.

(** The move constructor of [X]: from the object moved from, the object
    built and what is left of the object moved from. *)
Context (move_X : X -> X * X).

(** Copying an [X] (its copy constructor) gives an equal value. *)

(** [Maybe(const Maybe &that) { if (that.get()) create( *that); }]
    The object under construction starts with [pp] null. *)
Definition copy_ctor (that : Maybe.t X) : Maybe.t X * list X :=
  match Maybe.get that with
  | Some x => Maybe.create x Maybe.ctor
  | None => (Maybe.ctor, [])
  end.

(** [Maybe& operator= (const Maybe &that)]:
    [if (this != &that) { if (that.get()) create( *that); else reset(); }
     return *this;] *)
Definition copy_assign (this that : nat) (objs : Objects X)
  : Objects X * list X :=
  if decide (this ≠ that) then
    match Maybe.get (objs that) with
    | Some x =>
        let '(m, destroyed) := Maybe.create x (objs this) in
        (<[this:=m]> objs, destroyed)
    | None =>
        let '(m, destroyed) := Maybe.reset (objs this) in
        (<[this:=m]> objs, destroyed)
    end
  else (objs, []).

(** [Maybe(Maybe &&that) { if (that.get()) create(::std::move( *that)); }]
    Returns the object built, [that] as the move leaves it, and the
    objects destroyed. *)
Definition move_ctor (that : Maybe.t X)
  : Maybe.t X * Maybe.t X * list X :=
  match Maybe.get that with
  | Some x =>
      let '(made, remains) := move_X x in
      let '(m, destroyed) := Maybe.create made Maybe.ctor in
      (m, Maybe.Build (Some remains), destroyed)
  | None => (Maybe.ctor, that, [])
  end.

(** [Maybe& operator= (Maybe &&that)]:
    [if (this != &that) {
       if (that.get()) create(::std::move( *that)); else reset(); }
     return *this;]
    The object [create] builds is the one the move constructor of [X]
    makes from the object [that] holds, which stays where it is. *)
Definition move_assign (this that : nat) (objs : Objects X)
  : Objects X * list X :=
  if decide (this ≠ that) then
    match Maybe.get (objs that) with
    | Some x =>
        let '(made, remains) := move_X x in
        let '(m, destroyed) := Maybe.create made (objs this) in
        (<[this:=m]> (<[that:=Maybe.Build (Some remains)]> objs),
         destroyed)
    | None =>
        let '(m, destroyed) := Maybe.reset (objs this) in
        (<[this:=m]> objs, destroyed)
    end
  else (objs, []).
End MaybeAssign.

Section Lifetime.
Context {X : Type}.

(** A use of one [Maybe] object between its construction and its
    destruction. *)
Inductive Use : Type :=
| UseCreate (x : X)
| UseReset.

Definition use (u : Use) (m : Maybe.t X) : Maybe.t X * list X :=
  match u with
  | UseCreate x => Maybe.create x m
  | UseReset => Maybe.reset m
  end.

(** The uses in turn; the objects destroyed are listed in order. *)
Fixpoint uses (us : list Use) (m : Maybe.t X) : Maybe.t X * list X :=
  match us with
  | [] => (m, [])
  | u :: us' =>
      let '(m1, destroyed1) := use u m in
      let '(m2, destroyed2) := uses us' m1 in
      (m2, destroyed1 ++ destroyed2)
  end.

(** Construction, the uses, destruction. *)
Definition lifetime (us : list Use) : Maybe.t X * list X :=
  let '(m, destroyed) := uses us Maybe.ctor in
  let '(m', destroyed') := Maybe.dtor m in
  (m', destroyed ++ destroyed').

(** What the object holds, as a list: one object or none. *)
Definition held (m : Maybe.t X) : list X :=
  match Maybe.get m with
  | Some x => [x]
  | None => []
  end.

(** The objects the uses build, in order. *)
Fixpoint built (us : list Use) : list X :=
  match us with
  | [] => []
  | UseCreate x :: us' => x :: built us'
  | UseReset :: us' => built us'
  end.
End Lifetime.
End MaybeAssign.

(** ** [RestoreValue<T>] and [ValueRestorer<T>] *)

Module ValueRestorer.

(** Variables of type [T] by address. *)
Abbreviation Vars T := (nat -> T) (only parsing).

Section ValueRestorer.
Context {T : Type}.

(** A [std::unique_ptr< T, RestoreValue<T> >]: the pointer it owns (null
    is [None]) and its deleter, which is the one member [oldValue]. *)
Record t : Type := Build { ptr : option nat; oldValue : T }.

(** [RestoreValue::operator () ( T *p ) const { if (p) *p = oldValue; }] *)
Definition RestoreValue_call (old : T) (p : option nat) (vars : Vars T)
  : Vars T :=
  match p with
  | Some a => <[a:=old]> vars
  | None => vars
  end.

(** [explicit ValueRestorer( T &var )]
    [: std::unique_ptr< T, RestoreValue<T> >( &var, { var } ) {}] *)
Definition ctor (var : nat) (vars : Vars T) : t * Vars T :=
  (Build (Some var) (vars var), vars).

(** [explicit ValueRestorer( T &var, const T& newValue )]
    [: std::unique_ptr< T, RestoreValue<T> >( &var, { var } )]
    [{ var = newValue; }] *)
Definition ctor_set (var : nat) (newValue : T) (vars : Vars T) : t * Vars T :=
  (Build (Some var) (vars var), <[var:=newValue]> vars).

(** The destructor, that of [std::unique_ptr]:
    [if (get() != nullptr) get_deleter()(get());] *)
Definition dtor (r : t) (vars : Vars T) : Vars T :=
  match ptr r with
  | Some a => RestoreValue_call (oldValue r) (Some a) vars
  | None => vars
  end.

(** [release()] of [std::unique_ptr]: return the pointer and own
    nothing. *)
Definition release (r : t) : option nat * t :=
  (ptr r, Build None (oldValue r)).

(** [ValueRestorer(ValueRestorer &&that)]
    [: std::unique_ptr < T, RestoreValue<T> > ( std::move(that) ) {}]
    Returns the object built and [that] as the move leaves it: the
    pointer is transferred and [that] owns nothing. *)
Definition move_ctor (that : t) : t * t :=
  (Build (ptr that) (oldValue that), Build None (oldValue that)).

(** [ValueRestorer & operator= (ValueRestorer &&that)]:
    [if (this != &that)
        std::unique_ptr < T, RestoreValue<T> >::operator=(std::move(that));
     return *this;]
    The move assignment of [std::unique_ptr] is [reset(that.release())],
    which runs the deleter [this] has on the pointer [this] had, followed
    by the transfer of the deleter. [rs] holds the [ValueRestorer] objects
    by address. *)
Definition move_assign (this that : nat) (rs : nat -> t) (vars : Vars T)
  : (nat -> t) * Vars T :=
  if decide (this ≠ that) then
    let '(p, that') := release (rs that) in
    let vars' := dtor (rs this) vars in
    (<[this:=Build p (oldValue (rs that))]> (<[that:=that']> rs), vars')
  else (rs, vars).

(** Restorers of one variable built one inside the other, each setting the
    next value of [newValues]; the result lists them innermost first. *)
Fixpoint nest (var : nat) (newValues : list T) (built : list t)
    (vars : Vars T) : list t * Vars T :=
  match newValues with
  | [] => (built, vars)
  | v :: newValues' =>
      let '(r, vars') := ctor_set var v vars in
      nest var newValues' (r :: built) vars'
  end.

(** Leaving the scopes: the destructors run innermost first. *)
Fixpoint unwind (rs : list t) (vars : Vars T) : Vars T :=
  match rs with
  | [] => vars
  | r :: rs' => unwind rs' (dtor r vars)
  end.
End ValueRestorer.
Arguments t : clear implicits.
End ValueRestorer.

(** Variables that are all 0. *)
Definition zeros : nat -> Z := fun _ => 0.

(** ** [ArrayOf<X>] and [ArraysOf<X>] *)

Module ArrayOf.
Section ArrayOf.
Context {X : Type}.

(** [X{}], the value of a value-initialised element. *)
Context (value_init : X).

(** A [std::unique_ptr<X[]>]: [None] is null, [Some a] owns the array with
    elements [a]. Allocation is taken to succeed. *)
Definition t : Type := option (list X).

(** [ArrayOf() {}] *)
Definition ctor : t := None.

(** [safenew X[count]{}]: every element is value-initialised. *)
Definition new_initialized (count : nat) : list X :=
  replicate count value_init.

(** [safenew X[count]]: the elements are default-initialised; [uninit i]
    is what element [i] then holds (anything, for a numeric [X]). *)
Definition new_default (uninit : nat -> X) (count : nat) : list X :=
  uninit <$> seq 0 count.

(** [reset(p)] of [std::unique_ptr<X[]>]: own [p], then [delete[]] the
    array owned before, if any. Returns the arrays deleted. *)
Definition reset (p : list X) (this : t) : t * list (list X) :=
  (Some p, match this with Some old => [old] | None => [] end).

(** [void reinit(Integral count, bool initialize = false)]:
    [if (initialize) std::unique_ptr<X[]>::reset(safenew X[count]{});
     else std::unique_ptr<X[]>::reset(safenew X[count]);] *)
Definition reinit (uninit : nat -> X) (count : nat) (initialize : bool)
    (this : t) : t * list (list X) :=
  if initialize then reset (new_initialized count) this
  else reset (new_default uninit count) this.

(** [explicit ArrayOf(Integral count, bool initialize = false)]:
    [reinit(count, initialize);] on an object that owns nothing. *)
Definition ctor_count (uninit : nat -> X) (count : nat) (initialize : bool)
  : t :=
  (reinit uninit count initialize ctor).1.
End ArrayOf.
End ArrayOf.

Module ArraysOf.
Section ArraysOf.
Context {X : Type}.
Context (value_init : X).

(** An [ArrayOf<ArrayOf<X>>]: null, or an array of rows, each an
    [ArrayOf<X>]. *)
Definition t : Type := option (list (@ArrayOf.t X)).

(** The arrays of [X] deleted when an array of rows is deleted: the rows
    are destroyed last to first, and each row that owns one deletes it. *)
Definition rows_deleted (rows : list (@ArrayOf.t X)) : list (list X) :=
  omap id (reverse rows).

(** [reinit(count)] and [reinit(count, initialize)]:
    [ArrayOf<ArrayOf<X>>::reinit( count, initialize );]
    The element type has a default constructor, so with or without
    [initialize] every row of the new array owns nothing. Returns the
    arrays of [X] deleted with the old rows. *)
Definition reinit (count : nat) (initialize : bool) (this : t)
  : t * list (list X) :=
  (Some (replicate count ArrayOf.ctor),
   match this with Some old => rows_deleted old | None => [] end).

(** The loop of the three-argument [reinit],
    [for (size_t ii = 0; ii < countN; ++ii)
        ( *this)[ii].reinit(countM, initialize);]
    with [remaining] iterations to go; [uninit ii] gives the contents of
    row [ii] when they are not initialised. *)
Fixpoint reinit_rows (uninit : nat -> nat -> X) (countM : nat)
    (initialize : bool) (remaining ii : nat) (rows : list (@ArrayOf.t X))
  : list (@ArrayOf.t X) * list (list X) :=
  match remaining with
  | O => (rows, [])
  | S remaining' =>
      match rows !! ii with
      | Some row =>
          let '(row', deleted) :=
            ArrayOf.reinit value_init (uninit ii) countM initialize row in
          let '(rows', deleted') :=
            reinit_rows uninit countM initialize remaining' (S ii)
              (<[ii:=row']> rows) in
          (rows', deleted ++ deleted')
      | None => (rows, [])
      end
  end.

(** [void reinit(Integral1 countN, Integral2 countM,
                 bool initialize = false)]:
    [reinit(countN, false);
     for (size_t ii = 0; ii < countN; ++ii)
        ( *this)[ii].reinit(countM, initialize);] *)
Definition reinit2 (uninit : nat -> nat -> X) (countN countM : nat)
    (initialize : bool) (this : t) : t * list (list X) :=
  let '(this1, deleted1) := reinit countN false this in
  match this1 with
  | Some rows =>
      let '(rows', deleted2) :=
        reinit_rows uninit countM initialize countN 0 rows in
      (Some rows', deleted1 ++ deleted2)
  | None => (this1, deleted1)
  end.

(** The loop of the constructor,
    [for (size_t ii = 0; ii < N; ++ii)
        ( *this)[ii] = ArrayOf<X>{ M, initialize };]
    The move assignment makes the row own the temporary's array and
    deletes the one it owned. *)
Fixpoint assign_rows (uninit : nat -> nat -> X) (M : nat)
    (initialize : bool) (remaining ii : nat) (rows : list (@ArrayOf.t X))
  : list (@ArrayOf.t X) * list (list X) :=
  match remaining with
  | O => (rows, [])
  | S remaining' =>
      match rows !! ii with
      | Some row =>
          let temporary :=
            ArrayOf.ctor_count value_init (uninit ii) M initialize in
          let deleted := match row with Some old => [old] | None => [] end in
          let '(rows', deleted') :=
            assign_rows uninit M initialize remaining' (S ii)
              (<[ii:=temporary]> rows) in
          (rows', deleted ++ deleted')
      | None => (rows, [])
      end
  end.

(** [ArraysOf(Integral1 N, Integral2 M, bool initialize = false)]
    [: ArrayOf<ArrayOf<X>>( N )] and the loop above. *)
Definition ctor2 (uninit : nat -> nat -> X) (N M : nat) (initialize : bool)
  : t * list (list X) :=
  let '(this1, deleted1) := reinit N false None in
  match this1 with
  | Some rows =>
      let '(rows', deleted2) := assign_rows uninit M initialize N 0 rows in
      (Some rows', deleted1 ++ deleted2)
  | None => (this1, deleted1)
  end.
End ArraysOf.
End ArraysOf.

(** The array row [ii] owns after a two-dimensional allocation. *)
Definition fresh_row {X : Type} (value_init : X) (uninit : nat -> nat -> X)
    (M : nat) (initialize : bool) (ii : nat) : @ArrayOf.t X :=
  Some (if initialize then replicate M value_init
        else uninit ii <$> seq 0 M).

(** ** [SetTrackInfoCommand]: specification-level definitions *)

(** All the setter calls [Apply] can make on the track at [n], in the
    order of its statements. *)
Definition all_setter_calls (cmd : SetTrackInfoCommand.t) (n : nat)
  : list Call :=
  [ SetName n (mTrackName cmd); SetPan n (mPan cmd); SetGain n (mGain cmd);
    SetSelected n (bSelected cmd); SetFocusedTrack n;
    SetSolo n (bSolo cmd); SetMute n (bMute cmd) ].

(** Two commands ask for the same thing: the same index, the same fields
    present, and the same value for each field that is present. *)
Definition same_request (c1 c2 : SetTrackInfoCommand.t) : Prop :=
  mTrackIndex c1 = mTrackIndex c2 /\
  bHasTrackName c1 = bHasTrackName c2 /\
  bHasPan c1 = bHasPan c2 /\
  bHasGain c1 = bHasGain c2 /\
  bHasSelected c1 = bHasSelected c2 /\
  bHasFocused c1 = bHasFocused c2 /\
  bHasSolo c1 = bHasSolo c2 /\
  bHasMute c1 = bHasMute c2 /\
  (bHasTrackName c1 = true -> mTrackName c1 = mTrackName c2) /\
  (bHasPan c1 = true -> mPan c1 = mPan c2) /\
  (bHasGain c1 = true -> mGain c1 = mGain c2) /\
  (bHasSelected c1 = true -> bSelected c1 = bSelected c2) /\
  (bHasSolo c1 = true -> bSolo c1 = bSolo c2) /\
  (bHasMute c1 = true -> bMute c1 = bMute c2).

(** A command with no optional field present. *)
Definition only_index (index : Z) : SetTrackInfoCommand.t := {|
  mTrackIndex := index; mTrackName := "unnamed"; mPan := 0.0%float;
  mGain := 1.0%float; bSelected := false; bFocused := false;
  bSolo := false; bMute := false;
  bHasTrackName := false; bHasPan := false; bHasGain := false;
  bHasSelected := false; bHasFocused := false; bHasSolo := false;
  bHasMute := false
|}.

(** [rename_first] with different values in the fields that are absent,
    and the focus value set. *)
Definition rename_first_noise : SetTrackInfoCommand.t := {|
  mTrackIndex := 0; mTrackName := "Drums"; mPan := 0.75%float;
  mGain := 3.0%float; bSelected := true; bFocused := true;
  bSolo := true; bMute := true;
  bHasTrackName := true; bHasPan := false; bHasGain := false;
  bHasSelected := false; bHasFocused := false; bHasSolo := false;
  bHasMute := false
|}.
(** * Properties *)

(** ** The [long] type *)

Lemma LONG_MAX_value : LONG_MAX = 9223372036854775807.
Proof. reflexivity. Qed.

Lemma LONG_MIN_value : LONG_MIN = -9223372036854775808.
Proof. reflexivity. Qed.

Lemma to_long_small (z : Z) : LONG_MIN <= z <= LONG_MAX -> to_long z = z.
Proof.
  rewrite LONG_MAX_value, LONG_MIN_value. intros Hz. unfold to_long.
  change (2 ^ (LONG_BITS - 1)) with 9223372036854775808.
  change (2 ^ LONG_BITS) with 18446744073709551616.
  rewrite Z.mod_small by lia. lia.
Qed.

Lemma to_long_range (z : Z) : LONG_MIN <= to_long z <= LONG_MAX.
Proof.
  rewrite LONG_MAX_value, LONG_MIN_value. unfold to_long.
  change (2 ^ (LONG_BITS - 1)) with 9223372036854775808.
  change (2 ^ LONG_BITS) with 18446744073709551616.
  pose proof (Z.mod_pos_bound (z + 9223372036854775808) 18446744073709551616).
  lia.
Qed.

(** ** [Maybe<X>] *)

Example Maybe_reset_full :
  Maybe.reset (Maybe.Build (Some 7%nat)) = (Maybe.Build None, [7%nat]).
Proof. reflexivity. Qed.

Example Maybe_reset_null :
  Maybe.reset (@Maybe.ctor nat) = (Maybe.ctor, []).
Proof. reflexivity. Qed.

Example Maybe_create_over_old :
  Maybe.create 9%nat (Maybe.Build (Some 7%nat))
  = (Maybe.Build (Some 9%nat), [7%nat]).
Proof. reflexivity. Qed.

Section MaybeFacts.
Context {X : Type}.
Implicit Types m : Maybe.t X.

Lemma Maybe_reset_pp m : Maybe.pp (Maybe.reset m).1 = None.
Proof. unfold Maybe.reset. destruct m as [[x|]]; reflexivity. Qed.

Lemma Maybe_reset_destroys m :
  (Maybe.reset m).2 = match Maybe.get m with Some x => [x] | None => [] end.
Proof. unfold Maybe.reset, Maybe.get. destruct (Maybe.pp m); reflexivity. Qed.

Lemma Maybe_reset_empty m :
  Maybe.get m = None -> Maybe.reset m = (m, []).
Proof. unfold Maybe.reset, Maybe.get. intros ->. reflexivity. Qed.

Lemma Maybe_create_get (x : X) m : Maybe.get (Maybe.create x m).1 = Some x.
Proof. unfold Maybe.create. destruct (Maybe.reset m). reflexivity. Qed.

(** C10: after [reset] the object is empty ([get] is null, [bool] is
    false); a second [reset] changes nothing and destroys nothing; the
    destructor is [reset], so it leaves the same empty object. *)
Theorem Maybe_reset_empties_and_is_idempotent m :
  let m' := (Maybe.reset m).1 in
  Maybe.get m' = None /\
  Maybe.to_bool m' = false /\
  Maybe.reset m' = (m', []) /\
  Maybe.dtor m = Maybe.reset m /\
  Maybe.get (Maybe.dtor m).1 = None /\
  Maybe.to_bool (Maybe.dtor m).1 = false.
Proof.
  intros m'. subst m'.
  assert (Hpp : Maybe.get (Maybe.reset m).1 = None) by apply Maybe_reset_pp.
  assert (Hb : Maybe.to_bool (Maybe.reset m).1 = false).
  { unfold Maybe.to_bool. unfold Maybe.get in Hpp. rewrite Hpp. reflexivity. }
  repeat split; try assumption.
  apply Maybe_reset_empty, Hpp.
Qed.
End MaybeFacts.

(** ** [IteratorRange] *)

Example find_first_of_two :
  IteratorRange.find (IteratorRange.Build 5 [3; 1; 4; 1]%nat) 1%nat = 6%nat.
Proof. reflexivity. Qed.

Example find_missing_is_end :
  IteratorRange.find (IteratorRange.Build 5 [3; 1; 4; 1]%nat) 7%nat
  = IteratorRange.end_ (IteratorRange.Build 5 [3; 1; 4; 1]%nat).
Proof. reflexivity. Qed.

Example index_last :
  IteratorRange.index (IteratorRange.Build 0 [3; 1; 4]%nat) 4%nat = 2.
Proof. reflexivity. Qed.

Example contains_missing :
  IteratorRange.contains (IteratorRange.Build 0 [3; 1; 4]%nat) 7%nat = false.
Proof. reflexivity. Qed.

Section IteratorRangeFacts.
Context {A : Type} `{EqDecision A}.
Implicit Types (r : IteratorRange.t A) (l : list A) (v : A).

Import IteratorRange.

Lemma std_find_bounds (first : nat) l v :
  (first <= std_find first l v <= first + length l)%nat.
Proof.
  revert first. induction l as [|x l IH]; intros first; simpl.
  - lia.
  - destruct (decide (x = v)); [lia|]. specialize (IH (S first)). lia.
Qed.

Lemma std_find_last (first : nat) l v :
  std_find first l v = (first + length l)%nat <-> v ∉ l.
Proof.
  revert first. induction l as [|x l IH]; intros first; simpl.
  - split; [intros _; apply not_elem_of_nil | lia].
  - rewrite not_elem_of_cons. destruct (decide (x = v)) as [->|Hne].
    + split; [lia | intros [? _]; congruence].
    + rewrite <- IH. replace (first + S (length l))%nat
        with (S first + length l)%nat by lia.
      split; [intros Hf; split; [congruence | exact Hf] | intros [_ Hf]; exact Hf].
Qed.

Lemma std_find_first_occurrence (first : nat) l v :
  v ∈ l ->
  exists n : nat,
    std_find first l v = (first + n)%nat /\
    l !! n = Some v /\
    forall j : nat, (j < n)%nat -> l !! j ≠ Some v.
Proof.
  revert first. induction l as [|x l IH]; intros first Hin.
  - apply elem_of_nil in Hin. destruct Hin.
  - simpl. destruct (decide (x = v)) as [->|Hne].
    + exists 0%nat. split; [lia|]. split; [reflexivity|]. intros j Hj. lia.
    + apply elem_of_cons in Hin. destruct Hin as [Heq|Hin]; [congruence|].
      destruct (IH (S first) Hin) as (n & Hf & Hn & Hbefore).
      exists (S n). split; [lia|]. split; [exact Hn|].
      intros [|j] Hj; simpl; [congruence|]. apply Hbefore. lia.
Qed.

Lemma index_not_found r v : v ∉ elems r -> index r v = -1.
Proof.
  intros Hnot. unfold index, find, end_, second, begin.
  apply (std_find_last (first r)) in Hnot. rewrite Hnot.
  rewrite decide_True by reflexivity. reflexivity.
Qed.

Lemma index_found r v :
  std_distance (begin r) (end_ r) <= LONG_MAX ->
  v ∈ elems r ->
  exists n : nat,
    index r v = Z.of_nat n /\
    find r v = (begin r + n)%nat /\
    elems r !! n = Some v /\
    forall j : nat, (j < n)%nat -> elems r !! j ≠ Some v.
Proof.
  intros Hsize Hin.
  destruct (std_find_first_occurrence (first r) _ _ Hin) as (n & Hf & Hn & Hb).
  exists n. unfold index, find, begin, end_, second. rewrite Hf.
  pose proof (lookup_lt_Some _ _ _ Hn) as Hlt.
  rewrite decide_False by lia.
  split; [|split; [reflexivity|split; assumption]].
  unfold std_distance, begin, end_, second in Hsize.
  unfold std_distance. rewrite to_long_small; [lia|].
  rewrite LONG_MIN_value. lia.
Qed.

(** C9: on a range whose length, the distance from [begin] to [end], is a
    value a [long] can hold, [contains], [find] and [index] agree on
    membership; [index] is [-1] exactly when the value does not occur, and
    otherwise the offset from [begin] of its first occurrence. *)
Theorem index_find_contains_agree r v :
  std_distance (begin r) (end_ r) <= LONG_MAX ->
  (contains r v = true <-> find r v ≠ end_ r) /\
  (find r v ≠ end_ r <-> 0 <= index r v) /\
  (index r v = -1 <-> v ∉ elems r) /\
  (v ∈ elems r ->
   exists n : nat,
     index r v = Z.of_nat n /\
     find r v = (begin r + n)%nat /\
     elems r !! n = Some v /\
     forall j : nat, (j < n)%nat -> elems r !! j ≠ Some v).
Proof.
  intros Hsize.
  assert (Hend : find r v = end_ r <-> v ∉ elems r).
  { unfold find, end_, second, begin. apply std_find_last. }
  assert (Hidx : v ∈ elems r -> 0 <= index r v).
  { intros Hin. destruct (index_found r v Hsize Hin) as (n & -> & _). lia. }
  split; [|split; [|split]].
  - unfold contains. rewrite bool_decide_eq_true. split; intros Hne Heq; apply Hne; congruence.
  - rewrite Hend. split.
    + intros Hnn. apply Hidx. destruct (decide (v ∈ elems r)); [assumption|contradiction].
    + intros Hge Hnot. rewrite (index_not_found r v Hnot) in Hge. lia.
  - split; [|apply index_not_found].
    intros Hm Hin. specialize (Hidx Hin). lia.
  - apply index_found, Hsize.
Qed.

End IteratorRangeFacts.

(** The range [3, 1, 4, 1] starting at position 5: its length fits, [1]
    has index 1 (its first occurrence) and [7] has index -1. *)
Lemma index_find_contains_agree_witness :
  let r := IteratorRange.Build 5 [3; 1; 4; 1]%nat in
  IteratorRange.std_distance (IteratorRange.begin r) (IteratorRange.end_ r)
    <= LONG_MAX /\
  IteratorRange.index r 1%nat = 1 /\
  IteratorRange.index r 7%nat = -1 /\
  (IteratorRange.index r 7%nat = -1 <-> 7%nat ∉ IteratorRange.elems r).
Proof.
  intros r.
  assert (Hsize : IteratorRange.std_distance
                    (IteratorRange.begin r) (IteratorRange.end_ r)
                  <= LONG_MAX)
    by (vm_compute; discriminate).
  split; [exact Hsize|]. split; [reflexivity|]. split; [reflexivity|].
  apply (index_find_contains_agree r 7%nat Hsize).
Defined.

(** ** [SetTrackInfoCommand] *)

(** On the wave track every present field is applied. *)
Example Apply_on_wave_track :
  Apply (set_everything 0) two_tracks =
    (true,
     {| tracks :=
          [ {| track_name := "Lead"; track_selected := true;
               track_pan := 0.5%float; track_gain := 2.0%float;
               track_solo := true; track_mute := true;
               is_WaveTrack := true; is_PlayableTrack := true |};
            label_track ];
        focused_track := Some 0%nat |},
     [ SetName 0 "Lead"; SetPan 0 0.5%float; SetGain 0 2.0%float;
       SetSelected 0 true; SetFocusedTrack 0; SetSolo 0 true;
       SetMute 0 true ]).
Proof. reflexivity. Qed.

(** On the label track pan, gain, solo and mute are skipped. *)
Example Apply_on_label_track :
  Apply (set_everything 1) two_tracks =
    (true,
     {| tracks :=
          [ silent_track;
            {| track_name := "Lead"; track_selected := true;
               track_pan := 0.0%float; track_gain := 1.0%float;
               track_solo := false; track_mute := false;
               is_WaveTrack := false; is_PlayableTrack := false |} ];
        focused_track := Some 1%nat |},
     [ SetName 1 "Lead"; SetSelected 1 true; SetFocusedTrack 1 ]).
Proof. reflexivity. Qed.

(** One past the last track, and a negative index. *)
Example Apply_past_the_end :
  Apply (set_everything 2) two_tracks =
    (false, two_tracks, [Error "TrackIndex was invalid."]).
Proof. reflexivity. Qed.

Example Apply_negative_index :
  Apply (set_everything (-1)) two_tracks =
    (false, two_tracks, [Error "TrackIndex was invalid."]).
Proof. reflexivity. Qed.

Example locate_second_of_two :
  locate 0 (tracks two_tracks) 0 1 = (Some 1%nat, 1).
Proof. reflexivity. Qed.

Example locate_past_the_end :
  locate 0 (tracks two_tracks) 0 5 = (None, 2).
Proof. reflexivity. Qed.

Section LocateFacts.
Implicit Types (rest : list Track) (pos : nat) (i k : Z).

(** The loop leaves with the track [k - i] places further on and the
    counter at [k] when that track exists, and with a null track and the
    counter advanced once per track otherwise. *)
Lemma locate_spec rest pos i k :
  0 <= i ->
  i + Z.of_nat (length rest) <= LONG_MAX ->
  locate pos rest i k =
    if (i <=? k) && (k <? i + Z.of_nat (length rest))
    then (Some (pos + Z.to_nat (k - i))%nat, k)
    else (None, i + Z.of_nat (length rest)).
Proof.
  revert pos i. induction rest as [|x rest IH]; intros pos i Hi Hmax.
  - simpl. replace (i + Z.of_nat 0) with i by lia.
    destruct (i <=? k) eqn:Hle; simpl; [|reflexivity].
    destruct (k <? i) eqn:Hlt; [lia|reflexivity].
  - cbn [locate]. rewrite length_cons in *.
    destruct (i =? k) eqn:Heq.
    + apply Z.eqb_eq in Heq. subst k.
      rewrite Z.leb_refl. simpl.
      replace (i <? i + Z.of_nat (S (length rest))) with true
        by (symmetry; apply Z.ltb_lt; lia).
      replace (i - i) with 0 by lia. simpl. f_equal. f_equal. lia.
    + apply Z.eqb_neq in Heq.
      rewrite to_long_small by (rewrite LONG_MIN_value; lia).
      rewrite IH by lia.
      replace (i + 1 + Z.of_nat (length rest))
        with (i + Z.of_nat (S (length rest))) by lia.
      destruct (k <? i + Z.of_nat (S (length rest))) eqn:Hlt;
        [|rewrite !andb_false_r; reflexivity].
      rewrite !andb_true_r.
      destruct (i + 1 <=? k) eqn:Hle1.
      * replace (i <=? k) with true by (symmetry; apply Z.leb_le; lia).
        f_equal. f_equal. lia.
      * replace (i <=? k) with false by (symmetry; apply Z.leb_gt; lia).
        reflexivity.
Qed.

(** Position and counter advance together: when the loop stops at a
    track, the counter has been incremented once per track passed. *)
Lemma locate_lockstep rest pos i k (t : TrackPtr) (i' : Z) :
  0 <= i ->
  i + Z.of_nat (length rest) <= LONG_MAX ->
  locate pos rest i k = (Some t, i') ->
  i' = k /\ (pos <= t)%nat /\ i' - i = Z.of_nat (t - pos).
Proof.
  intros Hi Hmax. rewrite locate_spec by assumption.
  destruct ((i <=? k) && (k <? i + Z.of_nat (length rest))) eqn:Hc;
    [|discriminate].
  apply andb_true_iff in Hc. destruct Hc as [Hle Hlt].
  apply Z.leb_le in Hle. intros [= <- <-]. lia.
Qed.
End LocateFacts.

Section ApplyFacts.
Implicit Types (cmd : t) (p : Project) (tr : Track) (c : Call).

Lemma invalid_index_run p :
  invalid_index p = (false, p, [Error "TrackIndex was invalid."]).
Proof. reflexivity. Qed.

Lemma alter_found (f : Track -> Track) (l : list Track) (i : nat) tr :
  l !! i = Some tr -> alter f i l = <[i:=f tr]> l.
Proof.
  intros Hl. apply list_eq. intros j.
  destruct (decide (i = j)) as [<-|Hne].
  - rewrite list_lookup_alter_eq, Hl. simpl.
    rewrite list_lookup_insert_eq; [reflexivity|].
    eapply lookup_lt_Some, Hl.
  - rewrite list_lookup_alter_ne, list_lookup_insert_ne by assumption.
    reflexivity.
Qed.

(** Once the track is found, the statements of [Apply] return true, leave
    the track as [updated_track] describes, move the focus when the focus
    field is present, and make exactly the calls of [setter_calls]. *)
Lemma apply_fields_spec cmd (ptr : TrackPtr) p tr :
  tracks p !! ptr = Some tr ->
  apply_fields cmd ptr p =
    (true,
     {| tracks := <[ptr:=updated_track cmd tr]> (tracks p);
        focused_track :=
          if bHasFocused cmd then Some ptr else focused_track p |},
     setter_calls cmd ptr tr).
Proof.
  intros Hl. destruct p as [l foc]. simpl in Hl.
  unfold apply_fields, bind, dynamic_cast_WaveTrack,
    dynamic_cast_PlayableTrack, updated_track, setter_calls.
  cbn [tracks focused_track]. rewrite Hl.
  destruct tr as [nm sel pan gain solo mute w pl].
  destruct cmd as [idx cnm cpan cgain csel cfoc csolo cmute
                   hnm hpan hgain hsel hfoc hsolo hmute].
  cbn [is_WaveTrack is_PlayableTrack bHasTrackName bHasPan bHasGain
       bHasSelected bHasFocused bHasSolo bHasMute mTrackName mPan mGain
       bSelected bSolo bMute track_name track_selected track_pan track_gain
       track_solo track_mute].
  destruct w, pl, hnm, hpan, hgain, hsel, hfoc, hsolo, hmute;
    cbn -[alter insert];
    rewrite ?list_alter_alter_eq;
    first [ rewrite (alter_found _ _ _ _ Hl); reflexivity
          | rewrite (list_insert_id _ _ _ Hl); reflexivity ].
Qed.
End ApplyFacts.

Section ApplyLocates.
Implicit Types (cmd : t) (p : Project) (tr : Track) (c : Call).

Lemma Apply_unfold cmd p :
  Apply cmd p =
    let '(ptr, i) := locate 0 (tracks p) 0 (mTrackIndex cmd) in
    if negb (i =? mTrackIndex cmd) then invalid_index p
    else match ptr with
         | None => invalid_index p
         | Some ptr => apply_fields cmd ptr p
         end.
Proof.
  unfold Apply, bind, GetTracks.
  destruct (locate 0 (tracks p) 0 (mTrackIndex cmd)) as [ptr i].
  destruct (negb (i =? mTrackIndex cmd)).
  - destruct (invalid_index p) as [[b p'] cs]. simpl. reflexivity.
  - destruct ptr as [ptr|].
    + destruct (apply_fields cmd ptr p) as [[b p'] cs]. reflexivity.
    + destruct (invalid_index p) as [[b p'] cs]. reflexivity.
Qed.

(** With an index inside the track count, [Apply] runs its field
    statements on the track at that index. *)
Lemma Apply_in_range cmd p :
  track_count p <= LONG_MAX ->
  0 <= mTrackIndex cmd < track_count p ->
  Apply cmd p = apply_fields cmd (Z.to_nat (mTrackIndex cmd)) p.
Proof.
  unfold track_count. intros Hmax Hk.
  rewrite Apply_unfold, locate_spec by lia.
  replace ((0 <=? mTrackIndex cmd)
           && (mTrackIndex cmd <? 0 + Z.of_nat (length (tracks p))))
    with true by (symmetry; apply andb_true_iff; lia).
  rewrite Z.eqb_refl. simpl. rewrite Z.sub_0_r. reflexivity.
Qed.

(** With an index outside the track count, [Apply] takes its error path. *)
Lemma Apply_out_of_range cmd p :
  track_count p <= LONG_MAX ->
  ~ (0 <= mTrackIndex cmd < track_count p) ->
  Apply cmd p = (false, p, [Error "TrackIndex was invalid."]).
Proof.
  unfold track_count. intros Hmax Hk.
  rewrite Apply_unfold, locate_spec by lia.
  replace ((0 <=? mTrackIndex cmd)
           && (mTrackIndex cmd <? 0 + Z.of_nat (length (tracks p))))
    with false by (symmetry; apply andb_false_iff; lia).
  destruct (negb _); apply invalid_index_run.
Qed.

Lemma index_in_range_lookup cmd p :
  0 <= mTrackIndex cmd < track_count p <->
  0 <= mTrackIndex cmd /\
  is_Some (tracks p !! Z.to_nat (mTrackIndex cmd)).
Proof.
  unfold track_count. rewrite lookup_lt_is_Some. lia.
Qed.

Lemma elem_of_if_singleton c (b : bool) (x : Call) :
  c ∈ (if b then [x] else []) <-> b = true /\ c = x.
Proof.
  destruct b.
  - rewrite list_elem_of_singleton. tauto.
  - rewrite elem_of_nil. split; [tauto | intros [? _]; discriminate].
Qed.

(** The calls of [setter_calls], one by one. *)
Lemma elem_of_setter_calls c cmd (ptr : TrackPtr) tr :
  c ∈ setter_calls cmd ptr tr <->
  (bHasTrackName cmd = true /\ c = SetName ptr (mTrackName cmd)) \/
  (is_WaveTrack tr && bHasPan cmd = true /\ c = SetPan ptr (mPan cmd)) \/
  (is_WaveTrack tr && bHasGain cmd = true /\ c = SetGain ptr (mGain cmd)) \/
  (bHasSelected cmd = true /\ c = SetSelected ptr (bSelected cmd)) \/
  (bHasFocused cmd = true /\ c = SetFocusedTrack ptr) \/
  (is_PlayableTrack tr && bHasSolo cmd = true /\
   c = SetSolo ptr (bSolo cmd)) \/
  (is_PlayableTrack tr && bHasMute cmd = true /\
   c = SetMute ptr (bMute cmd)).
Proof.
  unfold setter_calls. rewrite !elem_of_app, !elem_of_if_singleton.
  reflexivity.
Qed.

(** The field statements always return true. *)
Lemma apply_fields_returns_true cmd (ptr : TrackPtr) p :
  (apply_fields cmd ptr p).1.1 = true.
Proof.
  unfold apply_fields, bind, dynamic_cast_WaveTrack,
    dynamic_cast_PlayableTrack.
  destruct (tracks p !! ptr) as [tr|];
    [destruct (is_WaveTrack tr), (is_PlayableTrack tr)|];
    destruct (bHasTrackName cmd), (bHasPan cmd), (bHasGain cmd),
      (bHasSelected cmd), (bHasFocused cmd), (bHasSolo cmd), (bHasMute cmd);
    reflexivity.
Qed.
End ApplyLocates.

(** Decide where a call of a given form sits among [setter_calls]. *)
Ltac setter_call_cases :=
  rewrite elem_of_setter_calls, ?andb_true_iff;
  split;
  [ let H := fresh "H" in
    intros H; repeat (destruct H as [H|H]); destruct H as [? H];
    try discriminate H; simplify_eq; intuition (auto; congruence)
  | intros; destruct_and?; simplify_eq; intuition auto ].

Section SetterCallFacts.
Implicit Types (cmd : t) (tr : Track) (n q : nat).

Lemma SetName_in_setter_calls cmd n tr q (v : string) :
  SetName q v ∈ setter_calls cmd n tr <->
  bHasTrackName cmd = true /\ q = n /\ v = mTrackName cmd.
Proof. setter_call_cases. Qed.

Lemma SetPan_in_setter_calls cmd n tr q (v : float) :
  SetPan q v ∈ setter_calls cmd n tr <->
  (is_WaveTrack tr = true /\ bHasPan cmd = true) /\ q = n /\ v = mPan cmd.
Proof. setter_call_cases. Qed.

Lemma SetGain_in_setter_calls cmd n tr q (v : float) :
  SetGain q v ∈ setter_calls cmd n tr <->
  (is_WaveTrack tr = true /\ bHasGain cmd = true) /\
  q = n /\ v = mGain cmd.
Proof. setter_call_cases. Qed.

Lemma SetSelected_in_setter_calls cmd n tr q (v : bool) :
  SetSelected q v ∈ setter_calls cmd n tr <->
  bHasSelected cmd = true /\ q = n /\ v = bSelected cmd.
Proof. setter_call_cases. Qed.

Lemma SetFocusedTrack_in_setter_calls cmd n tr q :
  SetFocusedTrack q ∈ setter_calls cmd n tr <->
  bHasFocused cmd = true /\ q = n.
Proof. setter_call_cases. Qed.

Lemma SetSolo_in_setter_calls cmd n tr q (v : bool) :
  SetSolo q v ∈ setter_calls cmd n tr <->
  (is_PlayableTrack tr = true /\ bHasSolo cmd = true) /\
  q = n /\ v = bSolo cmd.
Proof. setter_call_cases. Qed.

Lemma SetMute_in_setter_calls cmd n tr q (v : bool) :
  SetMute q v ∈ setter_calls cmd n tr <->
  (is_PlayableTrack tr = true /\ bHasMute cmd = true) /\
  q = n /\ v = bMute cmd.
Proof. setter_call_cases. Qed.

Lemma Error_not_in_setter_calls cmd n tr (message : string) :
  Error message ∉ setter_calls cmd n tr.
Proof.
  rewrite elem_of_setter_calls.
  intros H; repeat (destruct H as [H|H]); destruct H as [_ H];
    discriminate H.
Qed.

(** A property that [updated_track] keeps is kept throughout the list. *)
Lemma lookup_updated_track {X : Type} (f : Track -> X) cmd
    (l : list Track) n tr q :
  l !! n = Some tr ->
  f (updated_track cmd tr) = f tr ->
  f <$> <[n:=updated_track cmd tr]> l !! q = f <$> l !! q.
Proof.
  intros Hl Hf. destruct (decide (n = q)) as [<-|Hne].
  - rewrite list_lookup_insert_eq by (eapply lookup_lt_Some, Hl).
    rewrite Hl. simpl. rewrite Hf. reflexivity.
  - rewrite list_lookup_insert_ne by assumption. reflexivity.
Qed.
End SetterCallFacts.

Section ApplyClaims.
Implicit Types (cmd : t) (p : Project) (tr : Track) (c : Call).

(** [Apply] either fails, leaving the project alone and reporting the one
    error, or succeeds; it never does both. *)
Lemma Apply_outcomes cmd p :
  Apply cmd p = (false, p, [Error "TrackIndex was invalid."]) \/
  exists ptr : TrackPtr, Apply cmd p = apply_fields cmd ptr p.
Proof.
  rewrite Apply_unfold.
  destruct (locate 0 (tracks p) 0 (mTrackIndex cmd)) as [[ptr|] i];
    destruct (negb (i =? mTrackIndex cmd)); eauto using invalid_index_run.
Qed.

Lemma Apply_valid_run cmd p tr :
  track_count p <= LONG_MAX ->
  0 <= mTrackIndex cmd ->
  tracks p !! Z.to_nat (mTrackIndex cmd) = Some tr ->
  Apply cmd p =
    (true,
     {| tracks :=
          <[Z.to_nat (mTrackIndex cmd):=updated_track cmd tr]> (tracks p);
        focused_track :=
          if bHasFocused cmd then Some (Z.to_nat (mTrackIndex cmd))
          else focused_track p |},
     setter_calls cmd (Z.to_nat (mTrackIndex cmd)) tr).
Proof.
  intros Hmax Hk Htr.
  rewrite Apply_in_range; [apply apply_fields_spec, Htr | assumption |].
  apply index_in_range_lookup. split; [assumption | eauto].
Qed.

(** C1: [Apply] reports "TrackIndex was invalid." and returns false exactly
    when the index lies outside the track count, that is when no track
    exists at it; when a track exists at the index it returns true. *)
Theorem Apply_fails_iff_index_invalid cmd p :
  track_count p <= LONG_MAX ->
  ((Apply cmd p).1.1 = false <->
   ~ (0 <= mTrackIndex cmd < track_count p)) /\
  (Error "TrackIndex was invalid." ∈ (Apply cmd p).2 <->
   ~ (0 <= mTrackIndex cmd < track_count p)) /\
  (~ (0 <= mTrackIndex cmd < track_count p) <->
   ~ (0 <= mTrackIndex cmd /\
      is_Some (tracks p !! Z.to_nat (mTrackIndex cmd)))) /\
  (0 <= mTrackIndex cmd ->
   is_Some (tracks p !! Z.to_nat (mTrackIndex cmd)) ->
   (Apply cmd p).1.1 = true).
Proof.
  intros Hmax.
  assert (Hin : 0 <= mTrackIndex cmd < track_count p ->
                (Apply cmd p).1.1 = true /\
                Error "TrackIndex was invalid." ∉ (Apply cmd p).2).
  { intros Hk. pose proof Hk as Hk'.
    apply index_in_range_lookup in Hk'. destruct Hk' as [H0 [tr Htr]].
    rewrite (Apply_valid_run cmd p tr Hmax H0 Htr). simpl.
    split; [reflexivity | apply Error_not_in_setter_calls]. }
  assert (Hout : ~ (0 <= mTrackIndex cmd < track_count p) ->
                 (Apply cmd p).1.1 = false /\
                 Error "TrackIndex was invalid." ∈ (Apply cmd p).2).
  { intros Hk. rewrite (Apply_out_of_range cmd p Hmax Hk). simpl.
    split; [reflexivity | apply list_elem_of_singleton; reflexivity]. }
  destruct (decide (0 <= mTrackIndex cmd < track_count p)) as [Hk|Hk].
  - destruct (Hin Hk) as [Hr He]. rewrite Hr.
    rewrite <- index_in_range_lookup.
    repeat split; intros; try discriminate; try contradiction; tauto.
  - destruct (Hout Hk) as [Hr He]. rewrite Hr.
    rewrite <- index_in_range_lookup.
    repeat split; intros; try assumption; try reflexivity.
    exfalso. apply Hk. apply index_in_range_lookup. tauto.
Qed.

End ApplyClaims.

Lemma Apply_fails_iff_index_invalid_witness :
  track_count two_tracks <= LONG_MAX /\
  ((Apply (set_everything 2) two_tracks).1.1 = false <->
   ~ (0 <= mTrackIndex (set_everything 2) < track_count two_tracks)).
Proof.
  assert (Hmax : track_count two_tracks <= LONG_MAX)
    by (vm_compute; discriminate).
  split; [exact Hmax|].
  apply (Apply_fails_iff_index_invalid (set_everything 2) two_tracks Hmax).
Defined.

Section ApplyFieldClaims.
Implicit Types (cmd : t) (p : Project) (tr : Track) (c : Call).

(** C2: with a track at the configured index, [Apply] succeeds and applies
    each present field exactly to the tracks supporting it: [SetPan] and
    [SetGain] are called if and only if the field is present and the track
    is wave-capable, [SetSolo] and [SetMute] if and only if the field is
    present and the track is playable, [SetName], [SetSelected] and
    [SetFocusedTrack] if and only if the field is present, whatever the
    kind of track; every call is made on the located track with the value
    the command holds, and no error is reported. *)
Theorem Apply_sets_present_fields_on_supporting_tracks cmd p tr :
  track_count p <= LONG_MAX ->
  0 <= mTrackIndex cmd ->
  tracks p !! Z.to_nat (mTrackIndex cmd) = Some tr ->
  let n := Z.to_nat (mTrackIndex cmd) in
  let calls := (Apply cmd p).2 in
  (Apply cmd p).1.1 = true /\
  (forall q v, SetPan q v ∈ calls <->
     (is_WaveTrack tr = true /\ bHasPan cmd = true) /\
     q = n /\ v = mPan cmd) /\
  (forall q v, SetGain q v ∈ calls <->
     (is_WaveTrack tr = true /\ bHasGain cmd = true) /\
     q = n /\ v = mGain cmd) /\
  (forall q v, SetSolo q v ∈ calls <->
     (is_PlayableTrack tr = true /\ bHasSolo cmd = true) /\
     q = n /\ v = bSolo cmd) /\
  (forall q v, SetMute q v ∈ calls <->
     (is_PlayableTrack tr = true /\ bHasMute cmd = true) /\
     q = n /\ v = bMute cmd) /\
  (forall q v, SetName q v ∈ calls <->
     bHasTrackName cmd = true /\ q = n /\ v = mTrackName cmd) /\
  (forall q v, SetSelected q v ∈ calls <->
     bHasSelected cmd = true /\ q = n /\ v = bSelected cmd) /\
  (forall q, SetFocusedTrack q ∈ calls <->
     bHasFocused cmd = true /\ q = n) /\
  (forall message, Error message ∉ calls).
Proof.
  intros Hmax Hk Htr n calls. subst n calls.
  rewrite (Apply_valid_run cmd p tr Hmax Hk Htr). cbn [fst snd].
  split; [reflexivity|].
  split; [intros; apply SetPan_in_setter_calls|].
  split; [intros; apply SetGain_in_setter_calls|].
  split; [intros; apply SetSolo_in_setter_calls|].
  split; [intros; apply SetMute_in_setter_calls|].
  split; [intros; apply SetName_in_setter_calls|].
  split; [intros; apply SetSelected_in_setter_calls|].
  split; [intros; apply SetFocusedTrack_in_setter_calls|].
  intros. apply Error_not_in_setter_calls.
Qed.
End ApplyFieldClaims.

Lemma Apply_sets_present_fields_on_supporting_tracks_witness :
  track_count two_tracks <= LONG_MAX /\
  0 <= mTrackIndex (set_everything 1) /\
  tracks two_tracks !! Z.to_nat (mTrackIndex (set_everything 1))
    = Some label_track /\
  (Apply (set_everything 1) two_tracks).1.1 = true.
Proof.
  assert (Hmax : track_count two_tracks <= LONG_MAX)
    by (vm_compute; discriminate).
  assert (Hk : 0 <= mTrackIndex (set_everything 1))
    by (vm_compute; discriminate).
  assert (Htr : tracks two_tracks !! Z.to_nat (mTrackIndex (set_everything 1))
                = Some label_track) by reflexivity.
  split; [exact Hmax|]. split; [exact Hk|]. split; [exact Htr|].
  exact (proj1 (Apply_sets_present_fields_on_supporting_tracks
                  (set_everything 1) two_tracks label_track Hmax Hk Htr)).
Defined.

Section ApplyFrameClaims.
Implicit Types (cmd : t) (p : Project) (tr : Track) (c : Call).

(** C3: when [Apply] fails it has called no setter, only reported the
    error, and the project (every track property and the focus) is as it
    was. *)
Theorem Apply_failure_modifies_nothing cmd p :
  (Apply cmd p).1.1 = false ->
  (Apply cmd p).1.2 = p /\
  (Apply cmd p).2 = [Error "TrackIndex was invalid."] /\
  (forall c, c ∈ (Apply cmd p).2 -> c = Error "TrackIndex was invalid.").
Proof.
  intros Hfail. destruct (Apply_outcomes cmd p) as [Hrun|[ptr Hrun]].
  - rewrite Hrun. cbn [fst snd]. split; [reflexivity|].
    split; [reflexivity|]. intros c Hc.
    apply list_elem_of_singleton in Hc. exact Hc.
  - rewrite Hrun, apply_fields_returns_true in Hfail. discriminate Hfail.
Qed.

(** C4: with a track at the configured index, a field whose presence flag
    is false is left alone: its setter is not called on any track, and the
    property keeps its prior value on every track (the focus stays where
    it was). *)
Theorem Apply_leaves_absent_fields_unchanged cmd p tr :
  track_count p <= LONG_MAX ->
  0 <= mTrackIndex cmd ->
  tracks p !! Z.to_nat (mTrackIndex cmd) = Some tr ->
  let calls := (Apply cmd p).2 in
  let p' := (Apply cmd p).1.2 in
  (bHasTrackName cmd = false ->
   (forall q v, SetName q v ∉ calls) /\
   (forall q, track_name <$> tracks p' !! q = track_name <$> tracks p !! q)) /\
  (bHasPan cmd = false ->
   (forall q v, SetPan q v ∉ calls) /\
   (forall q, track_pan <$> tracks p' !! q = track_pan <$> tracks p !! q)) /\
  (bHasGain cmd = false ->
   (forall q v, SetGain q v ∉ calls) /\
   (forall q, track_gain <$> tracks p' !! q = track_gain <$> tracks p !! q)) /\
  (bHasSelected cmd = false ->
   (forall q v, SetSelected q v ∉ calls) /\
   (forall q, track_selected <$> tracks p' !! q
              = track_selected <$> tracks p !! q)) /\
  (bHasFocused cmd = false ->
   (forall q, SetFocusedTrack q ∉ calls) /\
   focused_track p' = focused_track p) /\
  (bHasSolo cmd = false ->
   (forall q v, SetSolo q v ∉ calls) /\
   (forall q, track_solo <$> tracks p' !! q = track_solo <$> tracks p !! q)) /\
  (bHasMute cmd = false ->
   (forall q v, SetMute q v ∉ calls) /\
   (forall q, track_mute <$> tracks p' !! q = track_mute <$> tracks p !! q)).
Proof.
  intros Hmax Hk Htr calls p'. subst calls p'.
  rewrite (Apply_valid_run cmd p tr Hmax Hk Htr).
  cbn [fst snd tracks focused_track].
  repeat split; intros.
  all: try (apply lookup_updated_track; [exact Htr|];
            unfold updated_track; simpl;
            match goal with H : _ = false |- _ => rewrite H end;
            rewrite ?andb_false_r; reflexivity).
  all: try (match goal with H : _ = false |- _ => rewrite H end; reflexivity).
  - rewrite SetName_in_setter_calls. intros [? _]. congruence.
  - rewrite SetPan_in_setter_calls. intros [[_ ?] _]. congruence.
  - rewrite SetGain_in_setter_calls. intros [[_ ?] _]. congruence.
  - rewrite SetSelected_in_setter_calls. intros [? _]. congruence.
  - rewrite SetFocusedTrack_in_setter_calls. intros [? _]. congruence.
  - rewrite SetSolo_in_setter_calls. intros [[_ ?] _]. congruence.
  - rewrite SetMute_in_setter_calls. intros [[_ ?] _]. congruence.
Qed.

(** C5: the scan starts at the first track with the counter at 0, moves
    one track on and counts one up at each step where the counter is not
    yet the index, and stops at a track when the counter is the index; for
    an index [k] with [0 <= k < N] it stops at position [k], and the track
    [Apply] works on is the [k]-th of the list. *)
Theorem Apply_selects_kth_track cmd p :
  track_count p <= LONG_MAX ->
  0 <= mTrackIndex cmd < track_count p ->
  let k := mTrackIndex cmd in
  (forall x rest pos i, i <> k ->
     locate pos (x :: rest) i k = locate (S pos) rest (to_long (i + 1)) k) /\
  (forall x rest pos, locate pos (x :: rest) k k = (Some pos, k)) /\
  (forall pos i, locate pos [] i k = (None, i)) /\
  locate 0 (tracks p) 0 k = (Some (Z.to_nat k), k) /\
  exists tr,
    tracks p !! Z.to_nat k = Some tr /\
    Apply cmd p = apply_fields cmd (Z.to_nat k) p /\
    (forall c, c ∈ (Apply cmd p).2 -> c ∈ setter_calls cmd (Z.to_nat k) tr).
Proof.
  intros Hmax Hk k. subst k.
  split.
  { intros x rest pos i Hne. cbn [locate].
    apply Z.eqb_neq in Hne. rewrite Hne. reflexivity. }
  split.
  { intros x rest pos. cbn [locate]. rewrite Z.eqb_refl. reflexivity. }
  split; [reflexivity|].
  assert (Hloc : locate 0 (tracks p) 0 (mTrackIndex cmd)
                 = (Some (Z.to_nat (mTrackIndex cmd)), mTrackIndex cmd)).
  { unfold track_count in *. rewrite locate_spec by lia.
    replace ((0 <=? mTrackIndex cmd)
             && (mTrackIndex cmd <? 0 + Z.of_nat (length (tracks p))))
      with true by (symmetry; apply andb_true_iff; lia).
    rewrite Z.sub_0_r. reflexivity. }
  split; [exact Hloc|].
  pose proof Hk as Hk'. apply index_in_range_lookup in Hk'.
  destruct Hk' as [H0 [tr Htr]]. exists tr.
  split; [exact Htr|]. split; [apply Apply_in_range; assumption|].
  rewrite (Apply_valid_run cmd p tr Hmax H0 Htr).
  cbn [fst snd]. auto.
Qed.
End ApplyFrameClaims.

Lemma Apply_failure_modifies_nothing_witness :
  (Apply (set_everything 2) two_tracks).1.1 = false /\
  (Apply (set_everything 2) two_tracks).1.2 = two_tracks.
Proof.
  assert (Hfail : (Apply (set_everything 2) two_tracks).1.1 = false)
    by reflexivity.
  split; [exact Hfail|].
  exact (proj1 (Apply_failure_modifies_nothing
                  (set_everything 2) two_tracks Hfail)).
Defined.

Lemma Apply_leaves_absent_fields_unchanged_witness :
  track_count two_tracks <= LONG_MAX /\
  0 <= mTrackIndex rename_first /\
  tracks two_tracks !! Z.to_nat (mTrackIndex rename_first)
    = Some silent_track /\
  (bHasPan rename_first = false ->
   (forall q v, SetPan q v ∉ (Apply rename_first two_tracks).2) /\
   (forall q, track_pan <$> tracks (Apply rename_first two_tracks).1.2 !! q
              = track_pan <$> tracks two_tracks !! q)).
Proof.
  assert (Hmax : track_count two_tracks <= LONG_MAX)
    by (vm_compute; discriminate).
  assert (Hk : 0 <= mTrackIndex rename_first) by (vm_compute; discriminate).
  assert (Htr : tracks two_tracks !! Z.to_nat (mTrackIndex rename_first)
                = Some silent_track) by reflexivity.
  split; [exact Hmax|]. split; [exact Hk|]. split; [exact Htr|].
  exact (proj1 (proj2 (Apply_leaves_absent_fields_unchanged
                         rename_first two_tracks silent_track Hmax Hk Htr))).
Defined.

Lemma Apply_selects_kth_track_witness :
  track_count two_tracks <= LONG_MAX /\
  0 <= mTrackIndex (set_everything 1) < track_count two_tracks /\
  locate 0 (tracks two_tracks) 0 (mTrackIndex (set_everything 1))
    = (Some 1%nat, 1).
Proof.
  assert (Hmax : track_count two_tracks <= LONG_MAX)
    by (vm_compute; discriminate).
  assert (Hk : 0 <= mTrackIndex (set_everything 1) < track_count two_tracks)
    by (split; vm_compute; [discriminate | reflexivity]).
  split; [exact Hmax|]. split; [exact Hk|].
  exact (proj1 (proj2 (proj2 (proj2
    (Apply_selects_kth_track (set_everything 1) two_tracks Hmax Hk))))).
Defined.

Section ParameterClaims.
Implicit Types (cmd : t) (p : Project) (tr : Track) (c : Call).

(** C6: [DefineParams] returns true and registers, in order, the names
    "TrackIndex", "Name", "Pan", "Gain", "Selected", "Focuseed", "Solo",
    "Mute". The focus flag [bFocused] is registered as "Focuseed", while
    [PopulateOrExchange] shows the same member as "Focused"; "Focused" is
    not a registered name. *)
Theorem DefineParams_registered_names :
  DefineParams.1 = true /\
  registered_names DefineParams.2 =
    ["TrackIndex"; "Name"; "Pan"; "Gain"; "Selected"; "Focuseed"; "Solo";
     "Mute"] /\
  param_key m_bFocused DefineParams.2 = Some "Focuseed" /\
  gui_prompt m_bFocused PopulateOrExchange = Some "Focused" /\
  ("Focused" ∉ registered_names DefineParams.2) /\
  registered_names DefineParams.2 ≠
    ["TrackIndex"; "Name"; "Pan"; "Gain"; "Selected"; "Focused"; "Solo";
     "Mute"].
Proof.
  split; [reflexivity|]. split; [reflexivity|].
  split; [reflexivity|]. split; [reflexivity|]. split.
  - cbn. rewrite !not_elem_of_cons. repeat split; try discriminate.
    apply not_elem_of_nil.
  - cbn. discriminate.
Qed.

(** C7: [DefineParams] declares the ranges 0 to 100 for the track index,
    -1 to 1 for pan and 0 to 10 for gain; [Apply] compares none of the
    values with them: whatever [mTrackIndex], [mPan] and [mGain] hold, a
    [SetPan] or [SetGain] call is made on the track at [mTrackIndex] with
    exactly [mPan] or [mGain], and it is made whenever that track exists,
    is wave-capable and the field is present. *)
Theorem Apply_forwards_values_unchecked cmd p :
  track_count p <= LONG_MAX ->
  declared_range m_mTrackIndex DefineParams.2 = Some (VInt 0, VInt 100) /\
  declared_range m_mPan DefineParams.2
    = Some (VDouble (-1.0)%float, VDouble 1.0%float) /\
  declared_range m_mGain DefineParams.2
    = Some (VDouble 0.0%float, VDouble 10.0%float) /\
  (forall q v, SetPan q v ∈ (Apply cmd p).2 ->
     Z.of_nat q = mTrackIndex cmd /\ v = mPan cmd) /\
  (forall q v, SetGain q v ∈ (Apply cmd p).2 ->
     Z.of_nat q = mTrackIndex cmd /\ v = mGain cmd) /\
  (forall tr,
     0 <= mTrackIndex cmd ->
     tracks p !! Z.to_nat (mTrackIndex cmd) = Some tr ->
     is_WaveTrack tr = true ->
     (bHasPan cmd = true ->
      SetPan (Z.to_nat (mTrackIndex cmd)) (mPan cmd) ∈ (Apply cmd p).2) /\
     (bHasGain cmd = true ->
      SetGain (Z.to_nat (mTrackIndex cmd)) (mGain cmd) ∈ (Apply cmd p).2)).
Proof.
  intros Hmax.
  split; [reflexivity|]. split; [reflexivity|]. split; [reflexivity|].
  assert (Hcalls :
    (exists tr, 0 <= mTrackIndex cmd /\
       (Apply cmd p).2 = setter_calls cmd (Z.to_nat (mTrackIndex cmd)) tr) \/
    (Apply cmd p).2 = [Error "TrackIndex was invalid."]).
  { destruct (decide (0 <= mTrackIndex cmd < track_count p)) as [Hk|Hk].
    - left. pose proof Hk as Hk'. apply index_in_range_lookup in Hk'.
      destruct Hk' as [H0 [tr Htr]]. exists tr.
      rewrite (Apply_valid_run cmd p tr Hmax H0 Htr). auto.
    - right. rewrite (Apply_out_of_range cmd p Hmax Hk). reflexivity. }
  split; [|split].
  - intros q v Hin. destruct Hcalls as [(tr & H0 & Heq)|Heq];
      rewrite Heq in Hin.
    + apply SetPan_in_setter_calls in Hin. destruct Hin as (_ & -> & ->).
      split; [lia | reflexivity].
    + apply list_elem_of_singleton in Hin. discriminate Hin.
  - intros q v Hin. destruct Hcalls as [(tr & H0 & Heq)|Heq];
      rewrite Heq in Hin.
    + apply SetGain_in_setter_calls in Hin. destruct Hin as (_ & -> & ->).
      split; [lia | reflexivity].
    + apply list_elem_of_singleton in Hin. discriminate Hin.
  - intros tr H0 Htr Hw.
    rewrite (Apply_valid_run cmd p tr Hmax H0 Htr). cbn [snd].
    split; intros Hb.
    + apply SetPan_in_setter_calls. auto.
    + apply SetGain_in_setter_calls. auto.
Qed.
End ParameterClaims.

Lemma Apply_forwards_values_unchecked_witness :
  track_count many_tracks <= LONG_MAX /\
  SetPan 101 5.0%float ∈ (Apply out_of_range many_tracks).2 /\
  SetGain 101 (-3.0)%float ∈ (Apply out_of_range many_tracks).2.
Proof.
  assert (Hmax : track_count many_tracks <= LONG_MAX)
    by (vm_compute; discriminate).
  split; [exact Hmax|].
  pose proof (proj2 (proj2 (proj2 (proj2 (proj2
    (Apply_forwards_values_unchecked out_of_range many_tracks Hmax))))))
    as Hfwd.
  assert (H0 : 0 <= mTrackIndex out_of_range) by (vm_compute; discriminate).
  destruct (Hfwd silent_track H0 eq_refl eq_refl) as [Hpan Hgain].
  split; [exact (Hpan eq_refl) | exact (Hgain eq_refl)].
Defined.

Section ConstructorClaims.
Implicit Types (cmd raw : t) (p : Project) (tr : Track).

(** With index 0 and a first track, [Apply] works on that track. *)
Lemma Apply_first_track cmd p tr :
  mTrackIndex cmd = 0 ->
  tracks p !! 0%nat = Some tr ->
  Apply cmd p =
    (true,
     {| tracks := <[0%nat:=updated_track cmd tr]> (tracks p);
        focused_track :=
          if bHasFocused cmd then Some 0%nat else focused_track p |},
     setter_calls cmd 0 tr).
Proof.
  intros Hidx Htr. rewrite Apply_unfold, Hidx.
  destruct (tracks p) as [|tr0 rest] eqn:Hl; [discriminate Htr|].
  cbn [locate Z.eqb negb]. rewrite <- Hl in *.
  apply apply_fields_spec, Htr.
Qed.

(** C8: whatever the object held before, the constructor leaves the eight
    value members at their defaults and the seven presence flags as it
    found them. So two freshly constructed commands agree on every member
    the constructor initialises and may still differ in a presence flag,
    and then [Apply] makes different setter calls on the same project. *)
Theorem ctor_leaves_presence_flags_uninitialised raw p tr :
  tracks p !! 0%nat = Some tr ->
  (mTrackIndex (ctor raw) = 0 /\
   mTrackName (ctor raw) = "unnamed" /\
   mPan (ctor raw) = 0.0%float /\
   mGain (ctor raw) = 1.0%float /\
   bSelected (ctor raw) = false /\
   bFocused (ctor raw) = false /\
   bSolo (ctor raw) = false /\
   bMute (ctor raw) = false) /\
  (bHasTrackName (ctor raw) = bHasTrackName raw /\
   bHasPan (ctor raw) = bHasPan raw /\
   bHasGain (ctor raw) = bHasGain raw /\
   bHasSelected (ctor raw) = bHasSelected raw /\
   bHasFocused (ctor raw) = bHasFocused raw /\
   bHasSolo (ctor raw) = bHasSolo raw /\
   bHasMute (ctor raw) = bHasMute raw) /\
  (forall q v, SetName q v ∈ (Apply (ctor raw) p).2 <->
     bHasTrackName raw = true /\ q = 0%nat /\ v = "unnamed") /\
  (forall q v, SetSelected q v ∈ (Apply (ctor raw) p).2 <->
     bHasSelected raw = true /\ q = 0%nat /\ v = false) /\
  (forall q, SetFocusedTrack q ∈ (Apply (ctor raw) p).2 <->
     bHasFocused raw = true /\ q = 0%nat) /\
  exists raw',
    (Apply (ctor raw') p).2 ≠ (Apply (ctor raw) p).2.
Proof.
  intros Htr.
  split; [repeat split|]. split; [repeat split|].
  assert (Hrun : forall r, (Apply (ctor r) p).2 = setter_calls (ctor r) 0 tr).
  { intros r. rewrite (Apply_first_track (ctor r) p tr eq_refl Htr).
    reflexivity. }
  split; [intros; rewrite Hrun, SetName_in_setter_calls; reflexivity|].
  split; [intros; rewrite Hrun, SetSelected_in_setter_calls; reflexivity|].
  split; [intros; rewrite Hrun, SetFocusedTrack_in_setter_calls; reflexivity|].
  exists (flip_bHasTrackName raw). rewrite !Hrun. intros Heq.
  assert (Hiff : SetName 0 "unnamed" ∈ setter_calls (ctor (flip_bHasTrackName raw)) 0 tr
                 <-> SetName 0 "unnamed" ∈ setter_calls (ctor raw) 0 tr)
    by (rewrite Heq; reflexivity).
  rewrite !SetName_in_setter_calls in Hiff. cbn in Hiff.
  destruct (bHasTrackName raw); cbn in Hiff; intuition congruence.
Qed.
End ConstructorClaims.

Lemma ctor_leaves_presence_flags_uninitialised_witness :
  tracks two_tracks !! 0%nat = Some silent_track /\
  bHasMute (ctor (set_everything 7)) = bHasMute (set_everything 7) /\
  exists raw',
    (Apply (ctor raw') two_tracks).2
    ≠ (Apply (ctor (set_everything 7)) two_tracks).2.
Proof.
  assert (Htr : tracks two_tracks !! 0%nat = Some silent_track)
    by reflexivity.
  pose proof (ctor_leaves_presence_flags_uninitialised
                (set_everything 7) two_tracks silent_track Htr) as H.
  split; [exact Htr|]. split.
  - exact (proj2 (proj2 (proj2 (proj2 (proj2 (proj2
      (proj1 (proj2 H)))))))).
  - exact (proj2 (proj2 (proj2 (proj2 (proj2 H))))).
Defined.

(** * Further properties *)

(** ** [IteratorRange]: predicates *)

Example index_if_first_even :
  IteratorRangeAlgorithms.index_if
    (IteratorRange.Build 5 [3; 1; 4; 1; 6]%nat) Nat.even = 2.
Proof. reflexivity. Qed.

Example all_of_empty_range :
  IteratorRangeAlgorithms.all_of (IteratorRange.Build 5 []) Nat.even = true.
Proof. reflexivity. Qed.

Example none_of_odd_range :
  IteratorRangeAlgorithms.none_of
    (IteratorRange.Build 0 [3; 1; 5]%nat) Nat.even = true.
Proof. reflexivity. Qed.

Section RangePredicateFacts.
Context {A : Type}.
Implicit Types (r : IteratorRange.t A) (l : list A) (f : A -> bool).

Import IteratorRange IteratorRangeAlgorithms.

Lemma std_find_if_last (first : nat) l f :
  std_find_if first l f = (first + length l)%nat <->
  forall v, v ∈ l -> f v = false.
Proof.
  revert first. induction l as [|x l IH]; intros first; simpl.
  - split; [|lia]. intros _ v Hv. apply elem_of_nil in Hv. destruct Hv.
  - destruct (f x) eqn:Hfx.
    + split; [lia|]. intros Hall.
      rewrite (Hall x) in Hfx by apply list_elem_of_here. discriminate.
    + replace (first + S (length l))%nat
        with (S first + length l)%nat by lia.
      rewrite IH. split.
      * intros Hall v Hv. apply elem_of_cons in Hv.
        destruct Hv as [->|Hv]; auto.
      * intros Hall v Hv. apply Hall. apply list_elem_of_further, Hv.
Qed.

Lemma std_find_if_first_match (first : nat) l f :
  (exists v, v ∈ l /\ f v = true) ->
  exists (n : nat) (x : A),
    std_find_if first l f = (first + n)%nat /\
    l !! n = Some x /\ f x = true /\
    forall (j : nat) (y : A), (j < n)%nat -> l !! j = Some y -> f y = false.
Proof.
  revert first. induction l as [|x l IH]; intros first (v & Hv & Hfv).
  - apply elem_of_nil in Hv. destruct Hv.
  - simpl. destruct (f x) eqn:Hfx.
    + exists 0%nat, x. split; [lia|]. split; [reflexivity|].
      split; [exact Hfx|]. intros j y Hj. lia.
    + apply elem_of_cons in Hv. destruct Hv as [->|Hv]; [congruence|].
      destruct (IH (S first)) as (n & x' & Hf & Hn & Hfx' & Hbefore);
        [eauto|].
      exists (S n), x'. split; [lia|]. split; [exact Hn|].
      split; [exact Hfx'|].
      intros [|j] y Hj Hy; simpl in Hy.
      * injection Hy as <-. exact Hfx.
      * apply (Hbefore j); [lia | exact Hy].
Qed.

Lemma some_or_none_accepted l f :
  (exists v, v ∈ l /\ f v = true) \/ (forall v, v ∈ l -> f v = false).
Proof.
  induction l as [|x l [(v & Hv & Hfv)|Hall]].
  - right. intros v Hv. apply elem_of_nil in Hv. destruct Hv.
  - left. exists v. split; [apply list_elem_of_further, Hv | exact Hfv].
  - destruct (f x) eqn:Hfx.
    + left. exists x. split; [apply list_elem_of_here | exact Hfx].
    + right. intros v Hv. apply elem_of_cons in Hv.
      destruct Hv as [->|Hv]; auto.
Qed.

Lemma any_of_spec r f :
  any_of r f = true <-> exists v, v ∈ elems r /\ f v = true.
Proof.
  unfold any_of. rewrite bool_decide_eq_true.
  assert (Hlast := std_find_if_last (first r) (elems r) f).
  unfold find_if, end_, second, begin. split.
  - intros Hne.
    destruct (some_or_none_accepted (elems r) f) as [Hex|Hno].
    + exact Hex.
    + exfalso. apply Hne. symmetry. apply Hlast, Hno.
  - intros (v & Hv & Hfv) Heq. symmetry in Heq.
    rewrite (proj1 Hlast Heq v Hv) in Hfv. discriminate.
Qed.

(** X1: [any_of] holds exactly when some element of the range satisfies
    the predicate, [all_of] exactly when every element does (so it holds
    on an empty range), and [none_of] exactly when no element does. *)
Theorem any_all_none_of_quantify r f :
  (any_of r f = true <-> exists v, v ∈ elems r /\ f v = true) /\
  (all_of r f = true <-> forall v, v ∈ elems r -> f v = true) /\
  (none_of r f = true <-> forall v, v ∈ elems r -> f v = false).
Proof.
  split; [apply any_of_spec|]. split.
  - unfold all_of. rewrite negb_true_iff, <- not_true_iff_false, any_of_spec.
    split.
    + intros Hno v Hv. destruct (f v) eqn:Hfv; [reflexivity|].
      exfalso. apply Hno. exists v. rewrite Hfv. auto.
    + intros Hall (v & Hv & Hfv). rewrite (Hall v Hv) in Hfv. discriminate.
  - unfold none_of. rewrite negb_true_iff, <- not_true_iff_false, any_of_spec.
    split.
    + intros Hno v Hv. destruct (f v) eqn:Hfv; [|reflexivity].
      exfalso. apply Hno. eauto.
    + intros Hall (v & Hv & Hfv). rewrite (Hall v Hv) in Hfv. discriminate.
Qed.

(** X2: on a range whose length a [long] can hold, [index_if] is [-1]
    exactly when no element satisfies the predicate, is not negative
    exactly when [any_of] holds, and is then the offset from [begin] of
    the first element satisfying it, the one [find_if] designates. *)
Theorem index_if_first_match r f :
  std_distance (begin r) (end_ r) <= LONG_MAX ->
  (index_if r f = -1 <-> forall v, v ∈ elems r -> f v = false) /\
  (0 <= index_if r f <-> any_of r f = true) /\
  ((exists v, v ∈ elems r /\ f v = true) ->
   exists (n : nat) (x : A),
     index_if r f = Z.of_nat n /\
     find_if r f = (begin r + n)%nat /\
     elems r !! n = Some x /\ f x = true /\
     forall (j : nat) (y : A),
       (j < n)%nat -> elems r !! j = Some y -> f y = false).
Proof.
  intros Hsize.
  assert (Hnone : (forall v, v ∈ elems r -> f v = false) -> index_if r f = -1).
  { intros Hall. unfold index_if, find_if, end_, second, begin.
    rewrite (proj2 (std_find_if_last (first r) (elems r) f) Hall).
    rewrite decide_True by reflexivity. reflexivity. }
  assert (Hsome : (exists v, v ∈ elems r /\ f v = true) ->
    exists (n : nat) (x : A),
      index_if r f = Z.of_nat n /\
      find_if r f = (begin r + n)%nat /\
      elems r !! n = Some x /\ f x = true /\
      forall (j : nat) (y : A),
        (j < n)%nat -> elems r !! j = Some y -> f y = false).
  { intros Hex.
    destruct (std_find_if_first_match (first r) (elems r) f Hex)
      as (n & x & Hf & Hn & Hfx & Hbefore).
    exists n, x. unfold index_if, find_if, begin, end_, second.
    rewrite Hf. pose proof (lookup_lt_Some _ _ _ Hn) as Hlt.
    rewrite decide_False by lia.
    split; [|split; [reflexivity|split; [exact Hn|split; assumption]]].
    unfold std_distance, begin, end_, second in Hsize.
    unfold std_distance. rewrite to_long_small; [lia|].
    rewrite LONG_MIN_value. lia. }
  destruct (some_or_none_accepted (elems r) f) as [Hex|Hall].
  - destruct (Hsome Hex) as (n & x & Hidx & _).
    split; [|split; [|exact Hsome]].
    + split; [intros Hm; lia|]. intros Hall.
      destruct Hex as (v & Hv & Hfv). rewrite (Hall v Hv) in Hfv.
      discriminate.
    + rewrite any_of_spec. split; [auto | intros _; lia].
  - pose proof (Hnone Hall) as Hm. split; [|split; [|exact Hsome]].
    + split; auto.
    + rewrite Hm, any_of_spec. split; [intros Hle; lia|].
      intros (v & Hv & Hfv). rewrite (Hall v Hv) in Hfv. discriminate.
Qed.

(** X4: for a range of fewer than [2^64] elements, [size] is the number of
    elements, and [empty], [operator bool] and [size] agree: the range is
    empty exactly when it has no element, exactly when its size is 0, and
    exactly when it converts to false. *)
Theorem empty_size_bool_agree r :
  Z.of_nat (length (elems r)) < 2 ^ 64 ->
  size r = Z.of_nat (length (elems r)) /\
  (empty r = true <-> elems r = []) /\
  (empty r = true <-> size r = 0) /\
  (to_bool r = false <-> empty r = true).
Proof.
  intros Hlen.
  assert (Hsize : size r = Z.of_nat (length (elems r))).
  { unfold size, to_size_t, std_distance, begin, end_, second.
    rewrite Z.mod_small by lia. lia. }
  assert (Hempty : empty r = true <-> elems r = []).
  { unfold empty, begin, end_, second. rewrite bool_decide_eq_true.
    destruct (elems r); simpl; split; intros; try lia; congruence. }
  split; [exact Hsize|]. split; [exact Hempty|]. split.
  - rewrite Hempty, Hsize. destruct (elems r); simpl; split;
      intros; try lia; congruence.
  - unfold to_bool. apply negb_false_iff.
Qed.
End RangePredicateFacts.

Section RangeEqualityFacts.
Context {A : Type} `{EqDecision A}.
Implicit Types (r : IteratorRange.t A) (v : A).

Import IteratorRange IteratorRangeAlgorithms.

Lemma std_find_as_find_if (first : nat) (l : list A) v :
  std_find first l v = std_find_if first l (fun x => bool_decide (x = v)).
Proof.
  revert first. induction l as [|x l IH]; intros first; simpl;
    [reflexivity|].
  destruct (decide (x = v)) as [Heq|Hne].
  - rewrite bool_decide_eq_true_2 by exact Heq. reflexivity.
  - rewrite bool_decide_eq_false_2 by exact Hne. apply IH.
Qed.

(** X3: searching for a value is searching with the predicate "equals the
    value": [find], [index] and [contains] return what [find_if],
    [index_if] and [any_of] return for it. *)
Theorem find_index_contains_as_predicate r v :
  find r v = find_if r (fun x => bool_decide (x = v)) /\
  index r v = index_if r (fun x => bool_decide (x = v)) /\
  contains r v = any_of r (fun x => bool_decide (x = v)).
Proof.
  assert (Hfind : find r v = find_if r (fun x => bool_decide (x = v)))
    by apply std_find_as_find_if.
  split; [exact Hfind|]. split.
  - unfold index, index_if. rewrite Hfind. reflexivity.
  - unfold contains, any_of. rewrite Hfind. reflexivity.
Qed.
End RangeEqualityFacts.

Lemma index_if_first_match_witness :
  let r := IteratorRange.Build 5 [3; 1; 4; 1; 6]%nat in
  IteratorRange.std_distance (IteratorRange.begin r) (IteratorRange.end_ r)
    <= LONG_MAX /\
  (IteratorRangeAlgorithms.index_if r Nat.even = -1 <->
   forall v, v ∈ IteratorRange.elems r -> Nat.even v = false).
Proof.
  intros r.
  assert (Hsize : IteratorRange.std_distance
                    (IteratorRange.begin r) (IteratorRange.end_ r)
                  <= LONG_MAX)
    by (vm_compute; discriminate).
  split; [exact Hsize|].
  exact (proj1 (index_if_first_match r Nat.even Hsize)).
Defined.

Lemma empty_size_bool_agree_witness :
  let r := IteratorRange.Build 5 [3; 1; 4]%nat in
  Z.of_nat (length (IteratorRange.elems r)) < 2 ^ 64 /\
  IteratorRange.size r = 3.
Proof.
  intros r.
  assert (Hlen : Z.of_nat (length (IteratorRange.elems r)) < 2 ^ 64)
    by reflexivity.
  split; [exact Hlen|].
  exact (proj1 (empty_size_bool_agree r Hlen)).
Defined.

(** ** [IteratorRange]: accumulations *)

Example min_of_three :
  IteratorRangeAlgorithms.min IteratorRangeAlgorithms.long_type
    (fun z : Z => z) (IteratorRange.Build 0 [3; -1; 4]) = -1.
Proof. reflexivity. Qed.

Example max_of_empty_long :
  IteratorRangeAlgorithms.max IteratorRangeAlgorithms.long_type
    (fun z : Z => z) (IteratorRange.Build 0 []) = -9223372036854775807.
Proof. reflexivity. Qed.

Example max_of_zeros_size_t :
  IteratorRangeAlgorithms.max IteratorRangeAlgorithms.size_t_type
    (fun z : Z => z) (IteratorRange.Build 0 [0; 0]) = 1.
Proof. reflexivity. Qed.

Example sum_wraps_size_t :
  IteratorRangeAlgorithms.sum IteratorRangeAlgorithms.size_t_type
    (fun z : Z => z) (IteratorRange.Build 0 [18446744073709551615; 3]) = 2.
Proof. reflexivity. Qed.

Section AccumulateFacts.
Context {A : Type}.
Implicit Types (r : IteratorRange.t A) (l : list A) (u : A -> Z).

Import IteratorRange IteratorRangeAlgorithms.



Lemma min_loop_spec (N : Numeric Z) u (result : Z) l :
  less N = Z.ltb ->
  let m := accumulate_loop (std_min N) u result l in
  m <= result /\
  (forall v, v ∈ l -> m <= u v) /\
  (m = result \/ exists v, v ∈ l /\ m = u v).
Proof.
  intros Hless. revert result.
  induction l as [|x l IH]; intros result; simpl.
  - split; [lia|]. split; [|auto].
    intros v Hv. apply elem_of_nil in Hv. destruct Hv.
  - destruct (IH (std_min N result (u x))) as (Hle & Hlow & Hatt).
    assert (Hmin : std_min N result (u x) = Z.min result (u x)).
    { unfold std_min. rewrite Hless.
      destruct (u x <? result) eqn:Hlt; lia. }
    rewrite Hmin in *. split; [lia|]. split.
    + intros v Hv. apply elem_of_cons in Hv. destruct Hv as [->|Hv];
        [lia | auto].
    + destruct Hatt as [Heq|(v & Hv & Heq)].
      * destruct (Z.min_spec result (u x)) as [[_ Hm]|[_ Hm]].
        -- left. lia.
        -- right. exists x. split; [apply list_elem_of_here | lia].
      * right. exists v. split; [apply list_elem_of_further, Hv | exact Heq].
Qed.

Lemma max_loop_spec (N : Numeric Z) u (result : Z) l :
  less N = Z.ltb ->
  let m := accumulate_loop (std_max N) u result l in
  result <= m /\
  (forall v, v ∈ l -> u v <= m) /\
  (m = result \/ exists v, v ∈ l /\ m = u v).
Proof.
  intros Hless. revert result.
  induction l as [|x l IH]; intros result; simpl.
  - split; [lia|]. split; [|auto].
    intros v Hv. apply elem_of_nil in Hv. destruct Hv.
  - destruct (IH (std_max N result (u x))) as (Hle & Hup & Hatt).
    assert (Hmax : std_max N result (u x) = Z.max result (u x)).
    { unfold std_max. rewrite Hless.
      destruct (result <? u x) eqn:Hlt; lia. }
    rewrite Hmax in *. split; [lia|]. split.
    + intros v Hv. apply elem_of_cons in Hv. destruct Hv as [->|Hv];
        [lia | auto].
    + destruct Hatt as [Heq|(v & Hv & Heq)].
      * destruct (Z.max_spec result (u x)) as [[_ Hm]|[_ Hm]].
        -- right. exists x. split; [apply list_elem_of_here | lia].
        -- left. lia.
      * right. exists v. split; [apply list_elem_of_further, Hv | exact Heq].
Qed.

(** X5: at [R = long], [min] of an empty range is [LONG_MAX]; on a range
    that is not empty it is the least of the values: no value is below it
    and some element has it. *)
Theorem min_long_is_least r u :
  (forall v, v ∈ elems r -> LONG_MIN <= u v <= LONG_MAX) ->
  (elems r = [] -> min long_type u r = LONG_MAX) /\
  (forall v, v ∈ elems r -> min long_type u r <= u v) /\
  (elems r <> [] -> exists v, v ∈ elems r /\ min long_type u r = u v).
Proof.
  intros Hval. unfold min, accumulate.
  destruct (min_loop_spec long_type u LONG_MAX (elems r) eq_refl)
    as (Hle & Hlow & Hatt).
  change (numeric_limits_max long_type) with LONG_MAX.
  split; [intros ->; reflexivity|]. split; [exact Hlow|].
  intros Hne. destruct Hatt as [Heq|Hatt]; [|exact Hatt].
  destruct (elems r) as [|x l] eqn:Hl; [congruence|].
  exists x. split; [apply list_elem_of_here|].
  specialize (Hlow x (list_elem_of_here _ _)).
  specialize (Hval x (list_elem_of_here _ _)). lia.
Qed.

(** X6: at [R = long], the starting value of [max] is [-LONG_MAX], one
    above [LONG_MIN]. So [max] is at least every value and at least
    [-LONG_MAX]; it is the greatest of the values when one of them is
    [-LONG_MAX] or more; and on a range all of whose values are
    [LONG_MIN] it is [LONG_MIN + 1], a value no element has. *)
Theorem max_long_starts_above_lowest r u :
  (forall v, v ∈ elems r -> LONG_MIN <= u v <= LONG_MAX) ->
  (forall v, v ∈ elems r -> u v <= max long_type u r) /\
  - LONG_MAX <= max long_type u r /\
  ((exists v, v ∈ elems r /\ - LONG_MAX <= u v) ->
   exists v, v ∈ elems r /\ max long_type u r = u v) /\
  ((forall v, v ∈ elems r -> u v = LONG_MIN) ->
   max long_type u r = LONG_MIN + 1 /\
   forall v, v ∈ elems r -> u v <> max long_type u r).
Proof.
  intros Hval. unfold max, accumulate.
  assert (Hinit : negate long_type (numeric_limits_max long_type)
                  = - LONG_MAX) by reflexivity.
  rewrite Hinit.
  destruct (max_loop_spec long_type u (- LONG_MAX) (elems r) eq_refl)
    as (Hge & Hup & Hatt).
  split; [exact Hup|]. split; [exact Hge|]. split.
  - intros (v & Hv & Hv0). destruct Hatt as [Heq|Hatt]; [|exact Hatt].
    exists v. split; [exact Hv|]. specialize (Hup v Hv). lia.
  - intros Hall.
    assert (Hm : accumulate_loop (std_max long_type) u (- LONG_MAX) (elems r)
                 = LONG_MIN + 1).
    { destruct Hatt as [Heq|(v & Hv & Heq)].
      - rewrite Heq. reflexivity.
      - rewrite (Hall v Hv) in Heq. rewrite LONG_MAX_value, LONG_MIN_value in *.
        lia. }
    split; [exact Hm|]. intros v Hv. rewrite Hm, (Hall v Hv). lia.
Qed.

(** X7: at an unsigned [R] ([size_t]), the starting value
    [-numeric_limits<R>::max()] of [max] is 1. So [max] is never 0: it is
    1 on an empty range and on a range of zeros, and the greatest of the
    values as soon as one of them is 1 or more. *)
Theorem max_size_t_is_never_zero r u :
  (forall v, v ∈ elems r -> 0 <= u v < 2 ^ 64) ->
  1 <= max size_t_type u r /\
  (forall v, v ∈ elems r -> u v <= max size_t_type u r) /\
  ((forall v, v ∈ elems r -> u v = 0) -> max size_t_type u r = 1) /\
  ((exists v, v ∈ elems r /\ 1 <= u v) ->
   exists v, v ∈ elems r /\ max size_t_type u r = u v).
Proof.
  intros Hval. unfold max, accumulate.
  assert (Hinit : negate size_t_type (numeric_limits_max size_t_type) = 1)
    by reflexivity.
  rewrite Hinit.
  destruct (max_loop_spec size_t_type u 1 (elems r) eq_refl)
    as (Hge & Hup & Hatt).
  split; [exact Hge|]. split; [exact Hup|]. split.
  - intros Hall. destruct Hatt as [Heq|(v & Hv & Heq)]; [exact Heq|].
    rewrite (Hall v Hv) in Heq. lia.
  - intros (v & Hv & Hv1). destruct Hatt as [Heq|Hatt]; [|exact Hatt].
    exists v. split; [exact Hv|]. specialize (Hup v Hv). lia.
Qed.

Lemma sum_loop_size_t u (result : Z) l :
  accumulate_loop (plus size_t_type) u (to_size_t result) l
  = to_size_t (result + total u l).
Proof.
  revert result. induction l as [|x l IH]; intros result; simpl.
  - rewrite Z.add_0_r. reflexivity.
  - replace (to_size_t (to_size_t result + u x))
      with (to_size_t (result + u x)).
    + rewrite IH. f_equal. lia.
    + unfold to_size_t. rewrite Zplus_mod_idemp_l. reflexivity.
Qed.

(** X8: at [R = size_t], [sum] is the sum of the values modulo [2^64]:
    it is the exact sum when that is below [2^64]; and the sum over a
    range cut in two is the sum of the two parts' sums, modulo [2^64]. *)
Theorem sum_size_t_is_total_mod r u :
  sum size_t_type u r = to_size_t (total u (elems r)) /\
  (0 <= total u (elems r) < 2 ^ 64 ->
   sum size_t_type u r = total u (elems r)) /\
  (forall l1 l2, elems r = l1 ++ l2 ->
     sum size_t_type u r
     = to_size_t (sum size_t_type u (Build (first r) l1)
                  + sum size_t_type u
                      (Build (first r + length l1) l2))).
Proof.
  assert (Hsum : forall l, accumulate_loop (plus size_t_type) u 0 l
                           = to_size_t (total u l)).
  { intros l. change 0 with (to_size_t 0) at 1.
    rewrite sum_loop_size_t. reflexivity. }
  assert (Htotal : forall l1 l2, total u (l1 ++ l2) = total u l1 + total u l2).
  { intros l1 l2. induction l1 as [|x l1 IH]; simpl; [reflexivity | lia]. }
  unfold sum, accumulate. change (zero size_t_type) with 0.
  split; [apply Hsum|]. split.
  - intros Hrange. rewrite Hsum. unfold to_size_t.
    apply Z.mod_small. exact Hrange.
  - intros l1 l2 Hl. cbn [elems]. rewrite !Hsum, Hl, Htotal.
    unfold to_size_t. rewrite <- Zplus_mod. reflexivity.
Qed.
End AccumulateFacts.

Lemma min_long_is_least_witness :
  let r := IteratorRange.Build 0 [3; -1; 4] in
  (forall v, v ∈ IteratorRange.elems r -> LONG_MIN <= v <= LONG_MAX) /\
  (forall v, v ∈ IteratorRange.elems r ->
     IteratorRangeAlgorithms.min IteratorRangeAlgorithms.long_type
       (fun z => z) r <= v).
Proof.
  intros r.
  assert (Hval : forall v, v ∈ IteratorRange.elems r ->
                           LONG_MIN <= v <= LONG_MAX).
  { intros v Hv. rewrite LONG_MIN_value, LONG_MAX_value.
    cbn in Hv. rewrite !elem_of_cons, elem_of_nil in Hv. lia. }
  split; [exact Hval|].
  exact (proj1 (proj2 (min_long_is_least r (fun z => z) Hval))).
Defined.

Lemma max_long_starts_above_lowest_witness :
  let r := IteratorRange.Build 0 [LONG_MIN; LONG_MIN] in
  (forall v, v ∈ IteratorRange.elems r -> LONG_MIN <= v <= LONG_MAX) /\
  - LONG_MAX <= IteratorRangeAlgorithms.max
                  IteratorRangeAlgorithms.long_type (fun z => z) r.
Proof.
  intros r.
  assert (Hval : forall v, v ∈ IteratorRange.elems r ->
                           LONG_MIN <= v <= LONG_MAX).
  { intros v Hv. rewrite LONG_MIN_value, LONG_MAX_value.
    cbn in Hv. rewrite !elem_of_cons, elem_of_nil in Hv.
    rewrite LONG_MIN_value in Hv. lia. }
  split; [exact Hval|].
  exact (proj1 (proj2 (max_long_starts_above_lowest r (fun z => z) Hval))).
Defined.

Lemma max_size_t_is_never_zero_witness :
  let r := IteratorRange.Build 0 [0; 0] in
  (forall v, v ∈ IteratorRange.elems r -> 0 <= v < 2 ^ 64) /\
  1 <= IteratorRangeAlgorithms.max
         IteratorRangeAlgorithms.size_t_type (fun z => z) r.
Proof.
  intros r.
  assert (Hval : forall v, v ∈ IteratorRange.elems r -> 0 <= v < 2 ^ 64).
  { intros v Hv. cbn in Hv. rewrite !elem_of_cons, elem_of_nil in Hv.
    assert (v = 0) as -> by tauto. split; [lia | reflexivity]. }
  split; [exact Hval|].
  exact (proj1 (max_size_t_is_never_zero r (fun z => z) Hval)).
Defined.


(** ** [Maybe<X>]: lifetime, copying and moving *)

Example lifetime_create_twice :
  MaybeAssign.lifetime
    [MaybeAssign.UseCreate 1%nat; MaybeAssign.UseCreate 2%nat]
  = (Maybe.Build None, [1%nat; 2%nat]).
Proof. reflexivity. Qed.

Example lifetime_reset_between :
  MaybeAssign.lifetime
    [MaybeAssign.UseReset; MaybeAssign.UseCreate 1%nat; MaybeAssign.UseReset;
     MaybeAssign.UseReset; MaybeAssign.UseCreate 2%nat]
  = (Maybe.Build None, [1%nat; 2%nat]).
Proof. reflexivity. Qed.

Section MaybeLifetimeFacts.
Context {X : Type}.
Implicit Types (m : Maybe.t X) (us : list (@MaybeAssign.Use X)).

Import MaybeAssign.

Lemma use_conserves (u : @Use X) m :
  (use u m).2 ++ held (use u m).1 = held m ++ built [u].
Proof.
  destruct u as [x|], m as [[y|]]; reflexivity.
Qed.

Lemma uses_conserve us m :
  (uses us m).2 ++ held (uses us m).1 = held m ++ built us.
Proof.
  revert m. induction us as [|u us IH]; intros m.
  - simpl. rewrite app_nil_r. reflexivity.
  - cbn [uses]. pose proof (use_conserves u m) as Hu.
    destruct (use u m) as [m1 d1]. specialize (IH m1).
    destruct (uses us m1) as [m2 d2]. cbn [fst snd] in *.
    rewrite <- app_assoc, IH, app_assoc, Hu, <- app_assoc.
    f_equal. destruct u; reflexivity.
Qed.

(** X9: whatever [create] and [reset] calls are made on a [Maybe] between
    its construction and its destruction, every object built in it is
    destroyed exactly once, in the order built, nothing else is
    destroyed, and the object ends empty. *)
Theorem lifetime_destroys_each_built_once us :
  (lifetime us).2 = built us /\
  Maybe.get (lifetime us).1 = None.
Proof.
  unfold lifetime. pose proof (uses_conserve us Maybe.ctor) as Hc.
  destruct (uses us Maybe.ctor) as [m d]. cbn [fst snd] in Hc.
  unfold Maybe.dtor. pose proof (Maybe_reset_destroys m) as Hd.
  pose proof (Maybe_reset_pp m) as Hp.
  destruct (Maybe.reset m) as [m' d']. cbn [fst snd] in *.
  split; [|exact Hp]. rewrite Hd. exact Hc.
Qed.
End MaybeLifetimeFacts.

Section MaybeAssignFacts.
Context {X : Type} (move_X : X -> X * X).
Implicit Types (objs : nat -> Maybe.t X) (this that : nat).

Import MaybeAssign.

(** X10: after the copy assignment [this = that], [this] holds what
    [that] holds (nothing if [that] is empty), every other object is as
    before, and what [this] held before has been destroyed; assigning an
    object to itself destroys nothing and changes nothing. A copy
    constructed object holds what its source holds. *)
Theorem copy_assign_copies_and_destroys_old this that objs :
  let objs' := (copy_assign this that objs).1 in
  let destroyed := (copy_assign this that objs).2 in
  Maybe.get (objs' this) = Maybe.get (objs that) /\
  (forall a, a <> this -> objs' a = objs a) /\
  (this <> that -> destroyed = held (objs this)) /\
  (this = that -> destroyed = [] /\ objs' = objs) /\
  (forall m : Maybe.t X,
     Maybe.get (copy_ctor m).1 = Maybe.get m /\ (copy_ctor m).2 = []).
Proof.
  cbv zeta.
  assert (Hctor : forall m : Maybe.t X,
            Maybe.get (copy_ctor m).1 = Maybe.get m /\ (copy_ctor m).2 = []).
  { intros [[x|]]; split; reflexivity. }
  unfold copy_assign.
  destruct (decide (this ≠ that)) as [Hne|Heq].
  - unfold Maybe.create, Maybe.reset, held, Maybe.get.
    destruct (objs that) as [[x|]] eqn:Hthat,
             (objs this) as [[y|]] eqn:Hthis; cbn [fst snd Maybe.pp];
      (split; [rewrite fn_lookup_insert; reflexivity|]);
      (split; [intros a Ha; rewrite fn_lookup_insert_ne by congruence;
               reflexivity|]);
      (split; [reflexivity|]);
      (split; [intros; congruence | exact Hctor]).
  - assert (this = that) as -> by (destruct (decide (this = that)); tauto).
    cbn [fst snd].
    split; [reflexivity|]. split; [reflexivity|].
    split; [intros; congruence|]. split; [auto | exact Hctor].
Qed.

(** X11: the move assignment [this = std::move(that)] does not empty
    [that]: when [that] holds an object it still holds one afterwards,
    what the move constructor of [X] left of it, and [this] holds the
    object that constructor built; what [this] held before has been
    destroyed, and only [this] and [that] change. Move construction
    likewise leaves its source holding an object. *)
Theorem move_assign_leaves_source_engaged this that objs :
  this <> that ->
  let objs' := (move_assign move_X this that objs).1 in
  let destroyed := (move_assign move_X this that objs).2 in
  Maybe.to_bool (objs' that) = Maybe.to_bool (objs that) /\
  Maybe.get (objs' this) = fst ∘ move_X <$> Maybe.get (objs that) /\
  Maybe.get (objs' that) = snd ∘ move_X <$> Maybe.get (objs that) /\
  destroyed = held (objs this) /\
  (forall a, a <> this -> a <> that -> objs' a = objs a) /\
  (forall m : Maybe.t X,
     Maybe.get (move_ctor move_X m).1.1 = fst ∘ move_X <$> Maybe.get m /\
     Maybe.get (move_ctor move_X m).1.2 = snd ∘ move_X <$> Maybe.get m /\
     (move_ctor move_X m).2 = []).
Proof.
  intros Hne. cbv zeta.
  assert (Hctor : forall m : Maybe.t X,
     Maybe.get (move_ctor move_X m).1.1 = fst ∘ move_X <$> Maybe.get m /\
     Maybe.get (move_ctor move_X m).1.2 = snd ∘ move_X <$> Maybe.get m /\
     (move_ctor move_X m).2 = []).
  { intros [[x|]]; unfold move_ctor, Maybe.get; cbn [Maybe.pp];
      [destruct (move_X x) as [made remains] eqn:Hmove|];
      cbn; rewrite ?Hmove; repeat split; reflexivity. }
  refine ((fun H => conj (proj1 H) (conj (proj1 (proj2 H))
            (conj (proj1 (proj2 (proj2 H)))
               (conj (proj1 (proj2 (proj2 (proj2 H))))
                  (conj (proj2 (proj2 (proj2 (proj2 H)))) Hctor))))) _).
  clear Hctor. unfold move_assign.
  rewrite decide_True by exact Hne.
  unfold Maybe.create, Maybe.reset, held, Maybe.get, Maybe.to_bool.
  destruct (objs that) as [[x|]] eqn:Hthat,
           (objs this) as [[y|]] eqn:Hthis;
    cbv beta iota delta [fst snd Maybe.pp];
    try destruct (move_X x) as [made remains] eqn:Hmove;
    cbv beta iota delta [fst snd Maybe.pp];
    repeat split; try reflexivity; intros;
    repeat first [ rewrite fn_lookup_insert
                 | rewrite fn_lookup_insert_ne by congruence ];
    rewrite ?Hthat; cbn; rewrite ?Hmove; reflexivity.
Qed.
End MaybeAssignFacts.

Lemma move_assign_leaves_source_engaged_witness :
  let objs : nat -> Maybe.t nat :=
    fun a => if decide (a = 1%nat) then Maybe.Build (Some 7%nat)
             else Maybe.ctor in
  0%nat <> 1%nat /\
  Maybe.to_bool
    ((MaybeAssign.move_assign (fun x => (x, 0%nat)) 0 1 objs).1 1%nat)
  = true.
Proof.
  intros objs.
  assert (Hne : 0%nat <> 1%nat) by discriminate.
  split; [exact Hne|].
  exact (proj1 (move_assign_leaves_source_engaged
                  (fun x => (x, 0%nat)) 0 1 objs Hne)).
Defined.

(** ** [ValueRestorer<T>] *)

Example restorer_scope :
  let '(r, vars) := ValueRestorer.ctor_set 1 5 zeros in
  (vars 1%nat, ValueRestorer.dtor r (<[1%nat:=9]> vars) 1%nat) = (5, 0).
Proof. reflexivity. Qed.

Example restorer_released :
  let '(r, vars) := ValueRestorer.ctor_set 1 5 zeros in
  ValueRestorer.dtor (ValueRestorer.release r).2 vars 1%nat = 5.
Proof. reflexivity. Qed.

Section ValueRestorerFacts.
Context {T : Type}.
Implicit Types (vars : nat -> T) (r : ValueRestorer.t T) (var : nat).

Import ValueRestorer.

Lemma dtor_owned r vars (a : nat) :
  ptr r = Some a -> dtor r vars = <[a:=oldValue r]> vars.
Proof. unfold dtor, RestoreValue_call. intros ->. reflexivity. Qed.

Lemma dtor_null r vars : ptr r = None -> dtor r vars = vars.
Proof. unfold dtor. intros ->. reflexivity. Qed.

(** X12: a restorer built with a new value sets the variable to it and
    touches no other variable; when it is destroyed, whatever was written
    to the variables meanwhile, the variable is back at the value it had
    before the restorer was built, and no other variable is changed. If
    the restorer is released first, destroying it changes nothing: the
    value written stays. A restorer built without a new value leaves the
    variables alone and restores the same value. *)
Theorem restorer_scope_round_trip var (newValue : T) vars :
  let r := (ctor_set var newValue vars).1 in
  let inside := (ctor_set var newValue vars).2 in
  inside var = newValue /\
  (forall a, a <> var -> inside a = vars a) /\
  forall later : nat -> T,
    dtor r later var = vars var /\
    (forall a, a <> var -> dtor r later a = later a) /\
    (release r).1 = Some var /\
    dtor (release r).2 later = later /\
    (ctor var vars).2 = vars /\
    dtor (ctor var vars).1 later = dtor r later.
Proof.
  cbv zeta. unfold ctor_set, ctor. cbn [fst snd].
  split; [apply fn_lookup_insert|].
  split; [intros a Ha; apply fn_lookup_insert_ne; congruence|].
  intros later.
  rewrite (dtor_owned (Build (Some var) (vars var)) later var eq_refl).
  cbn [oldValue].
  split; [apply fn_lookup_insert|].
  split; [intros a Ha; apply fn_lookup_insert_ne; congruence|].
  repeat split; reflexivity.
Qed.

Lemma unwind_app (rs1 rs2 : list (ValueRestorer.t T)) vars :
  unwind (rs1 ++ rs2) vars = unwind rs2 (unwind rs1 vars).
Proof.
  revert vars. induction rs1 as [|r rs1 IH]; intros vars; simpl;
    [reflexivity | apply IH].
Qed.

Lemma last_cons_default (v : T) (vs : list T) (d : T) :
  List.last (v :: vs) d = List.last vs v.
Proof.
  revert v d. induction vs as [|x vs IH]; intros v d; [reflexivity|].
  change (List.last (v :: x :: vs) d) with (List.last (x :: vs) d).
  rewrite (IH x d), (IH x v). reflexivity.
Qed.

Lemma nest_spec var (newValues : list T) (outer : list (ValueRestorer.t T))
    vars :
  exists inner : list (ValueRestorer.t T),
    (nest var newValues outer vars).1 = inner ++ outer /\
    length inner = length newValues /\
    (forall a, a <> var -> (nest var newValues outer vars).2 a = vars a) /\
    (nest var newValues outer vars).2 var = List.last newValues (vars var) /\
    forall later : nat -> T,
      (forall a, a <> var -> unwind inner later a = later a) /\
      (newValues <> [] -> unwind inner later var = vars var).
Proof.
  revert outer vars. induction newValues as [|v vs IH]; intros outer vars.
  - exists []. simpl. repeat split; auto. congruence.
  - cbn [nest ctor_set].
    destruct (IH (Build (Some var) (vars var) :: outer) (<[var:=v]> vars))
      as (inner & Hstack & Hlen & Hothers & Hvar & Hunwind).
    exists (inner ++ [Build (Some var) (vars var)]).
    rewrite Hstack, <- app_assoc. split; [reflexivity|].
    split; [rewrite length_app; simpl; lia|].
    split.
    { intros a Ha. rewrite Hothers by exact Ha.
      apply fn_lookup_insert_ne. congruence. }
    split.
    { rewrite Hvar, fn_lookup_insert, last_cons_default. reflexivity. }
    intros later. rewrite unwind_app. cbn [unwind].
    rewrite (dtor_owned (Build (Some var) (vars var)) _ var eq_refl).
    cbn [oldValue].
    split.
    + intros a Ha. rewrite fn_lookup_insert_ne by congruence.
      apply Hunwind, Ha.
    + intros _. apply fn_lookup_insert.
Qed.

(** X13: restorers of one variable built one inside the other and
    destroyed innermost first bring the variable back to the value it had
    before the outermost was built, whatever was written meanwhile; while
    they are alive the variable holds the last value set; no other
    variable is changed by building or destroying them. *)
Theorem nested_restorers_unwind_to_original var (newValues : list T) vars :
  newValues <> [] ->
  let stack := (nest var newValues [] vars).1 in
  let inside := (nest var newValues [] vars).2 in
  inside var = List.last newValues (vars var) /\
  (forall a, a <> var -> inside a = vars a) /\
  forall later : nat -> T,
    unwind stack later var = vars var /\
    (forall a, a <> var -> unwind stack later a = later a).
Proof.
  intros Hne. cbv zeta.
  destruct (nest_spec var newValues [] vars)
    as (inner & Hstack & _ & Hothers & Hvar & Hunwind).
  rewrite app_nil_r in Hstack. rewrite Hstack.
  split; [exact Hvar|]. split; [exact Hothers|].
  intros later. destruct (Hunwind later) as [Hframe Hback].
  split; [apply Hback, Hne | exact Hframe].
Qed.

(** X14: moving hands the duty over exactly once. A restorer built by
    move construction restores what the source would have, and the source
    then restores nothing. Move assignment between two different
    restorers first restores the variable the target was guarding, then
    hands the source's duty to the target and leaves the source owning
    nothing; assigning a restorer to itself changes nothing. *)
Theorem restorer_move_hands_duty_over
    (this that : nat) (rs : nat -> ValueRestorer.t T) vars :
  let rs' := (move_assign this that rs vars).1 in
  let vars' := (move_assign this that rs vars).2 in
  (forall r later,
     dtor (move_ctor r).1 later = dtor r later /\
     dtor (move_ctor r).2 later = later) /\
  (this <> that ->
   vars' = dtor (rs this) vars /\
   ptr (rs' that) = None /\
   (forall later, dtor (rs' that) later = later) /\
   (forall later, dtor (rs' this) later = dtor (rs that) later) /\
   (forall a, a <> this -> a <> that -> rs' a = rs a)) /\
  (this = that -> rs' = rs /\ vars' = vars).
Proof.
  cbv zeta. split; [intros r later; split; reflexivity|].
  unfold move_assign, release.
  destruct (decide (this ≠ that)) as [Hne|Heq]; cbn [fst snd].
  - split; [|intros; congruence]. intros _.
    split; [reflexivity|].
    rewrite fn_lookup_insert.
    rewrite (fn_lookup_insert_ne _ this that) by exact Hne.
    rewrite fn_lookup_insert. cbn [ptr].
    split; [reflexivity|]. split; [reflexivity|]. split; [reflexivity|].
    intros a Ha1 Ha2. rewrite !fn_lookup_insert_ne by congruence.
    reflexivity.
  - split; [intros Hne; contradiction | auto].
Qed.
End ValueRestorerFacts.

Lemma nested_restorers_unwind_to_original_witness :
  [5; 7] <> [] /\
  ValueRestorer.unwind
    (ValueRestorer.nest 1 [5; 7] [] zeros).1
    (<[1%nat:=9]> (ValueRestorer.nest 1 [5; 7] [] zeros).2) 1%nat
  = zeros 1%nat.
Proof.
  assert (Hne : [5; 7] <> []) by discriminate.
  split; [exact Hne|].
  exact (proj1 (proj2 (proj2
    (nested_restorers_unwind_to_original 1 [5; 7] zeros Hne))
    (<[1%nat:=9]> (ValueRestorer.nest 1 [5; 7] [] zeros).2))).
Defined.

(** ** [ArraysOf<X>] *)

Example reinit2_two_by_three :
  ArraysOf.reinit2 0 (fun _ _ => 7) 2 3 true (Some [Some [1; 2]; None])
  = (Some [Some [0; 0; 0]; Some [0; 0; 0]], [[1; 2]]).
Proof. reflexivity. Qed.

Example reinit2_uninitialised :
  (ArraysOf.reinit2 0 (fun ii jj => Z.of_nat (10 * ii + jj)) 2 2 false None).1
  = Some [Some [0; 1]; Some [10; 11]].
Proof. reflexivity. Qed.

Section ArraysOfFacts.
Context {X : Type} (value_init : X).
Implicit Types (uninit : nat -> nat -> X) (rows : list (@ArrayOf.t X)).

Import ArraysOf.

Lemma row_reinit_fresh uninit (M : nat) (initialize : bool) (ii : nat) :
  ArrayOf.reinit value_init (uninit ii) M initialize None
  = (fresh_row value_init uninit M initialize ii, []).
Proof. destruct initialize; reflexivity. Qed.

(** The loop, entered at row [ii] with the rows before it done and the
    rows from it on owning nothing, fills the next [remaining] rows and
    deletes nothing. *)
Lemma reinit_rows_spec uninit (M : nat) (initialize : bool)
    (remaining : nat) rows (later : list (@ArrayOf.t X)) :
  reinit_rows value_init uninit M initialize remaining (length rows)
    (rows ++ replicate remaining None ++ later)
  = (rows ++ (fresh_row value_init uninit M initialize
                <$> seq (length rows) remaining) ++ later, []).
Proof.
  revert rows. induction remaining as [|remaining IH]; intros rows.
  - reflexivity.
  - cbn [reinit_rows replicate app seq fmap list_fmap].
    rewrite list_lookup_middle by reflexivity.
    rewrite row_reinit_fresh.
    replace (length rows) with (length rows + 0)%nat at 2 by lia.
    rewrite insert_app_r. cbn [insert list_insert].
    rewrite (cons_middle _ rows), app_assoc.
    replace (S (length rows))
      with (length (rows ++ [fresh_row value_init uninit M initialize
                               (length rows)]))
      by (rewrite length_app; simpl; lia).
    rewrite IH. rewrite <- app_assoc. reflexivity.
Qed.

Lemma assign_rows_spec uninit (M : nat) (initialize : bool)
    (remaining : nat) rows (later : list (@ArrayOf.t X)) :
  assign_rows value_init uninit M initialize remaining (length rows)
    (rows ++ replicate remaining None ++ later)
  = (rows ++ (fresh_row value_init uninit M initialize
                <$> seq (length rows) remaining) ++ later, []).
Proof.
  revert rows. induction remaining as [|remaining IH]; intros rows.
  - reflexivity.
  - cbn [assign_rows replicate app seq fmap list_fmap].
    rewrite list_lookup_middle by reflexivity.
    assert (Htemp : ArrayOf.ctor_count value_init (uninit (length rows)) M
                      initialize
                    = fresh_row value_init uninit M initialize (length rows)).
    { unfold ArrayOf.ctor_count, ArrayOf.ctor.
      rewrite row_reinit_fresh. reflexivity. }
    rewrite Htemp.
    replace (length rows) with (length rows + 0)%nat at 2 by lia.
    rewrite insert_app_r. cbn [insert list_insert].
    rewrite (cons_middle _ rows), app_assoc.
    replace (S (length rows))
      with (length (rows ++ [fresh_row value_init uninit M initialize
                               (length rows)]))
      by (rewrite length_app; simpl; lia).
    rewrite IH. rewrite <- app_assoc. reflexivity.
Qed.

(** X15: whatever the object owned, the three-argument [reinit] leaves it
    owning [countN] rows, each owning an array of [countM] elements, all
    of them [X{}] when [initialize] is set; the arrays deleted are exactly
    those the old rows owned, last row first; and the constructor with the
    same arguments builds the same object. *)
Theorem reinit2_allocates_countN_by_countM uninit (countN countM : nat)
    (initialize : bool) (this : ArraysOf.t) :
  exists rows,
    (reinit2 value_init uninit countN countM initialize this).1 = Some rows /\
    length rows = countN /\
    (forall ii, (ii < countN)%nat ->
       exists a, rows !! ii = Some (Some a) /\
                 length a = countM /\
                 (initialize = true ->
                  forall jj, (jj < countM)%nat -> a !! jj = Some value_init) /\
                 (initialize = false ->
                  forall jj, (jj < countM)%nat ->
                    a !! jj = Some (uninit ii jj))) /\
    (reinit2 value_init uninit countN countM initialize this).2
    = match this with Some old => rows_deleted old | None => [] end /\
    ctor2 value_init uninit countN countM initialize = (Some rows, []).
Proof.
  exists (fresh_row value_init uninit countM initialize <$> seq 0 countN).
  assert (Hloop :
    reinit_rows value_init uninit countM initialize countN 0
      (replicate countN ArrayOf.ctor)
    = (fresh_row value_init uninit countM initialize <$> seq 0 countN, [])).
  { pose proof (reinit_rows_spec uninit countM initialize countN [] [])
      as Hspec.
    cbn [length app] in Hspec. rewrite !app_nil_r in Hspec. exact Hspec. }
  assert (Hassign :
    assign_rows value_init uninit countM initialize countN 0
      (replicate countN ArrayOf.ctor)
    = (fresh_row value_init uninit countM initialize <$> seq 0 countN, [])).
  { pose proof (assign_rows_spec uninit countM initialize countN [] [])
      as Hspec.
    cbn [length app] in Hspec. rewrite !app_nil_r in Hspec. exact Hspec. }
  unfold reinit2, ctor2, reinit. rewrite Hloop, Hassign. cbn [fst snd].
  split; [reflexivity|].
  split; [rewrite length_fmap, length_seq; reflexivity|].
  split; [|split; [apply app_nil_r | reflexivity]].
  intros ii Hii. rewrite list_lookup_fmap, lookup_seq_lt by exact Hii.
  cbn [fmap option_fmap option_map Nat.add]. unfold fresh_row.
  eexists. split; [reflexivity|].
  destruct initialize.
  - split; [apply length_replicate|]. split; [|discriminate].
    intros _ jj Hjj. apply lookup_replicate_2, Hjj.
  - split; [rewrite length_fmap, length_seq; reflexivity|].
    split; [discriminate|].
    intros _ jj Hjj. rewrite list_lookup_fmap, lookup_seq_lt by exact Hjj.
    reflexivity.
Qed.
End ArraysOfFacts.

(** ** [SetTrackInfoCommand::Apply]: further properties *)

Example Apply_focus_value_false :
  (Apply {| mTrackIndex := 1; mTrackName := "unnamed"; mPan := 0.0%float;
            mGain := 1.0%float; bSelected := false; bFocused := false;
            bSolo := false; bMute := false;
            bHasTrackName := false; bHasPan := false; bHasGain := false;
            bHasSelected := false; bHasFocused := true; bHasSolo := false;
            bHasMute := false |} two_tracks).2
  = [SetFocusedTrack 1].
Proof. reflexivity. Qed.

Example Apply_only_index :
  Apply (only_index 1) two_tracks = (true, two_tracks, []).
Proof. reflexivity. Qed.

Section ApplyMoreFacts.
Implicit Types (cmd : SetTrackInfoCommand.t) (p : Project) (tr : Track).

Lemma apply_fields_same_request (c1 c2 : SetTrackInfoCommand.t)
    (ptr : nat) p :
  same_request c1 c2 -> apply_fields c1 ptr p = apply_fields c2 ptr p.
Proof.
  unfold same_request.
  destruct c1 as [i1 n1 pan1 g1 s1 f1 so1 mu1 hn1 hp1 hg1 hs1 hf1 hso1 hmu1].
  destruct c2 as [i2 n2 pan2 g2 s2 f2 so2 mu2 hn2 hp2 hg2 hs2 hf2 hso2 hmu2].
  cbn. intros (-> & -> & -> & -> & -> & -> & -> & -> &
               Hn & Hp & Hg & Hs & Hso & Hmu).
  unfold apply_fields, bind, dynamic_cast_WaveTrack,
    dynamic_cast_PlayableTrack.
  cbn [bHasTrackName bHasPan bHasGain bHasSelected bHasFocused bHasSolo
       bHasMute mTrackName mPan mGain bSelected bSolo bMute].
  (destruct hn2; [rewrite (Hn eq_refl)|]);
  (destruct hp2; [rewrite (Hp eq_refl)|]);
  (destruct hg2; [rewrite (Hg eq_refl)|]);
  (destruct hs2; [rewrite (Hs eq_refl)|]);
  (destruct hso2; [rewrite (Hso eq_refl)|]);
  (destruct hmu2; [rewrite (Hmu eq_refl)|]);
  (destruct (tracks p !! ptr) as [tr|];
    [destruct (is_WaveTrack tr), (is_PlayableTrack tr)|]);
  reflexivity.
Qed.

(** X16: [Apply] reads a value field only when its presence flag is set,
    and never reads [bFocused]: two commands with the same index, the same
    flags and the same values in the fields that are present give the
    same result, the same project and the same calls, whatever their
    absent fields and their [bFocused] hold. *)
Theorem Apply_reads_only_present_fields (c1 c2 : SetTrackInfoCommand.t) p :
  same_request c1 c2 -> Apply c1 p = Apply c2 p.
Proof.
  intros Hsame. rewrite !Apply_unfold.
  pose proof Hsame as (Hidx & _). rewrite Hidx.
  destruct (locate 0 (tracks p) 0 (mTrackIndex c2)) as [[ptr|] i];
    [|reflexivity].
  rewrite (apply_fields_same_request c1 c2 ptr p Hsame). reflexivity.
Qed.

Lemma if_singleton_sublist (b : bool) (c : Call) :
  (if b then [c] else []) `sublist_of` [c].
Proof. destruct b; [reflexivity | apply sublist_nil_l]. Qed.

Lemma setter_calls_sublist cmd (n : nat) tr :
  setter_calls cmd n tr `sublist_of` all_setter_calls cmd n.
Proof.
  unfold setter_calls, all_setter_calls.
  repeat match goal with
  | |- (if ?b then [?c] else []) ++ _ `sublist_of` ?c :: ?l =>
      change (c :: l) with ([c] ++ l);
      apply sublist_app; [apply if_singleton_sublist|]
  end.
  apply if_singleton_sublist.
Qed.

(** X17: on success the calls [Apply] has made are some of the seven
    setter calls on the located track, in the order name, pan, gain,
    selected, focus, solo, mute: each setter is called at most once, and
    never out of that order. *)
Theorem Apply_calls_in_statement_order cmd p tr :
  track_count p <= LONG_MAX ->
  0 <= mTrackIndex cmd ->
  tracks p !! Z.to_nat (mTrackIndex cmd) = Some tr ->
  (Apply cmd p).2
    `sublist_of` all_setter_calls cmd (Z.to_nat (mTrackIndex cmd)) /\
  (length (Apply cmd p).2 <= 7)%nat /\
  NoDup (Apply cmd p).2.
Proof.
  intros Hmax Hk Htr.
  rewrite (Apply_valid_run cmd p tr Hmax Hk Htr). cbn [snd].
  pose proof (setter_calls_sublist cmd (Z.to_nat (mTrackIndex cmd)) tr)
    as Hsub.
  split; [exact Hsub|]. split.
  - apply sublist_length in Hsub. exact Hsub.
  - eapply sublist_NoDup; [|exact Hsub].
    unfold all_setter_calls.
    repeat (apply NoDup_cons_2;
            [rewrite ?not_elem_of_cons; repeat split;
             try discriminate; apply not_elem_of_nil|]).
    apply NoDup_nil_2.
Qed.

(** X18: a command with no optional field present, on an index at which a
    track exists, succeeds, makes no call and leaves the project exactly
    as it was. *)
Theorem Apply_without_fields_changes_nothing cmd p tr :
  track_count p <= LONG_MAX ->
  0 <= mTrackIndex cmd ->
  tracks p !! Z.to_nat (mTrackIndex cmd) = Some tr ->
  bHasTrackName cmd = false -> bHasPan cmd = false ->
  bHasGain cmd = false -> bHasSelected cmd = false ->
  bHasFocused cmd = false -> bHasSolo cmd = false ->
  bHasMute cmd = false ->
  Apply cmd p = (true, p, []).
Proof.
  intros Hmax Hk Htr Hn Hp Hg Hs Hf Hso Hmu.
  rewrite (Apply_valid_run cmd p tr Hmax Hk Htr).
  unfold setter_calls, updated_track.
  rewrite Hn, Hp, Hg, Hs, Hf, Hso, Hmu, !andb_false_r. cbn [app].
  destruct tr, p as [l foc].
  cbn [tracks focused_track track_name track_selected track_pan track_gain
       track_solo track_mute is_WaveTrack is_PlayableTrack] in *.
  rewrite (list_insert_id _ _ _ Htr). reflexivity.
Qed.
End ApplyMoreFacts.

Lemma Apply_reads_only_present_fields_witness :
  same_request rename_first rename_first_noise /\
  Apply rename_first two_tracks = Apply rename_first_noise two_tracks.
Proof.
  assert (Hsame : same_request rename_first rename_first_noise).
  { unfold same_request. cbn.
    repeat split; try reflexivity; intros; discriminate. }
  split; [exact Hsame|].
  exact (Apply_reads_only_present_fields
           rename_first rename_first_noise two_tracks Hsame).
Defined.

Lemma Apply_calls_in_statement_order_witness :
  track_count two_tracks <= LONG_MAX /\
  0 <= mTrackIndex (set_everything 1) /\
  tracks two_tracks !! Z.to_nat (mTrackIndex (set_everything 1))
    = Some label_track /\
  (Apply (set_everything 1) two_tracks).2
    `sublist_of` all_setter_calls (set_everything 1) 1.
Proof.
  assert (Hmax : track_count two_tracks <= LONG_MAX)
    by (vm_compute; discriminate).
  assert (Hk : 0 <= mTrackIndex (set_everything 1))
    by (vm_compute; discriminate).
  assert (Htr : tracks two_tracks !! Z.to_nat (mTrackIndex (set_everything 1))
                = Some label_track) by reflexivity.
  split; [exact Hmax|]. split; [exact Hk|]. split; [exact Htr|].
  exact (proj1 (Apply_calls_in_statement_order
                  (set_everything 1) two_tracks label_track Hmax Hk Htr)).
Defined.

Lemma Apply_without_fields_changes_nothing_witness :
  track_count two_tracks <= LONG_MAX /\
  0 <= mTrackIndex (only_index 1) /\
  tracks two_tracks !! Z.to_nat (mTrackIndex (only_index 1))
    = Some label_track /\
  Apply (only_index 1) two_tracks = (true, two_tracks, []).
Proof.
  assert (Hmax : track_count two_tracks <= LONG_MAX)
    by (vm_compute; discriminate).
  assert (Hk : 0 <= mTrackIndex (only_index 1))
    by (vm_compute; discriminate).
  assert (Htr : tracks two_tracks !! Z.to_nat (mTrackIndex (only_index 1))
                = Some label_track) by reflexivity.
  split; [exact Hmax|]. split; [exact Hk|]. split; [exact Htr|].
  exact (Apply_without_fields_changes_nothing (only_index 1) two_tracks
           label_track Hmax Hk Htr eq_refl eq_refl eq_refl eq_refl eq_refl
           eq_refl eq_refl).
Defined.
